(** * COBS (Consistent Overhead Byte Stuffing) codec: [src/cobs.c]

    A shallow embedding of [cobsEncode], [cobsDecode] and
    [maxCobsEncodedLength], and the properties of the codec proved on it.

    Modelling choices.
    - A byte ([uint8_t] held in memory) is a [Byte.byte]; the [uint8_t]
      locals [code] and [block] are integers in [Z] whose increments and
      decrements wrap modulo 256 ([wrap8]).
    - A pointer argument is [ptr]: [None] for [NULL], [Some l] for a pointer
      to the first byte of an object whose contents are [l]; [length l] is
      the capacity of the object.  [data] and [buffer] are distinct objects.
    - A pointer local ([encode], [codep], [byte], [decode]) is the offset
      ([nat]) from the start of its object.
    - A load or a store outside the object is undefined behaviour: [load]
      and [store] return [None] there, and the whole call is [None].
    - [size_t] is unsigned of [SIZE_BITS] bits; the width comes with the
      platform, so it is a variable of the development.  It matters for
      [maxCobsEncodedLength], whose sum can wrap.  The [length] argument and
      the returned count are natural numbers: [length--] only counts down
      to 0 (the value it wraps to after the last test is never used), and
      the count is an offset into [buffer]. *)

From Stdlib Require Import ZArith Lia ZifyNat.
From Stdlib Require Import Init.Byte Strings.Byte.
From stdpp Require Import base option list.
From Equations Require Import Equations.
From Equations.Prop Require Import Logic.

Local Open Scope Z_scope.

(** ** Bytes and memory objects *)

(** The value of a byte as an unsigned 8-bit integer. *)
Definition u8 (b : byte) : Z := Z.of_N (Byte.to_N b).

(** Reduction modulo 2^8, the arithmetic of [uint8_t]. *)
Definition wrap8 (z : Z) : Z := z mod 256.

(** The byte that holds a [uint8_t] value. *)
Definition to_byte (z : Z) : byte :=
  default x00 (Byte.of_N (Z.to_N (wrap8 z))).

(** A pointer to a byte object, or [NULL]. *)
Definition ptr : Type := option (list byte).
Definition NULL : ptr := None.

(** [p[i]] as an rvalue. *)
Definition load (p : list byte) (i : nat) : option byte := p !! i.

(** [p[i] = v]. *)
Definition store (p : list byte) (i : nat) (v : byte) : option (list byte) :=
  if decide (i < length p)%nat then Some (<[i:=v]> p) else None.

(** ** The encoder, [cobsEncode] *)

Module Enc.

(** The locals of [cobsEncode] that live across loop iterations, and the
    contents of the object [buffer] points to. *)
Record state : Type := State {
  buffer : list byte;
  encode : nat;   (* uint8_t *encode, as encode - buffer *)
  codep : nat;    (* uint8_t *codep, as codep - buffer *)
  code : Z        (* uint8_t code *)
}.

(** [*encode++ = *byte, ++code;] *)
Definition write_byte (b : byte) (s : state) : option state :=
  buf ← store (buffer s) (encode s) b;
  Some {| buffer := buf; encode := S (encode s); codep := codep s;
          code := wrap8 (code s + 1) |}.

(** [*codep = code, code = 1, codep = encode; if (!*byte || length) ++encode;]
    where [length] is the value after the loop test has decremented it. *)
Definition restart (b : byte) (length : nat) (s : state) : option state :=
  buf ← store (buffer s) (codep s) (to_byte (code s));
  Some {| buffer := buf;
          encode := if (u8 b =? 0) || negb (length =? 0)%nat
                    then S (encode s) else encode s;
          codep := encode s;
          code := 1 |}.

(** One iteration of the [for] loop on the input byte [b]. *)
Definition body (b : byte) (length : nat) (s : state) : option state :=
  s1 ← (if negb (u8 b =? 0) then write_byte b s else Some s);
  if (u8 b =? 0) || (code s1 =? 255) then restart b length s1 else Some s1.

(** [for (byte = data; length--; ++byte) ...]: [byte] is the offset of the
    read pointer in [data]; the test [length--] ends the loop at 0 and
    otherwise runs the body with [length] one less. *)
Fixpoint loop (data : list byte) (byte : nat) (length : nat) (s : state)
  : option state :=
  match length with
  | O => Some s
  | S length' =>
      b ← load data byte;
      s' ← body b length' s;
      loop data (S byte) length' s'
  end.

(** [encode = buffer; codep = encode++; code = 1;] *)
Definition init (buffer : list byte) : state :=
  {| buffer := buffer; encode := 1; codep := 0; code := 1 |}.

End Enc.

(** [size_t cobsEncode(const uint8_t *data, size_t length, uint8_t *buffer)].
    The result is the returned count together with the contents of the
    object [buffer] points to after the call. *)
Definition cobsEncode (data : ptr) (length : nat) (buffer : ptr)
  : option (nat * ptr) :=
  match data, buffer with
  | Some d, Some buf =>
      s ← Enc.loop d 0 length (Enc.init buf);
      (* *codep = code; *)
      out ← store (Enc.buffer s) (Enc.codep s) (to_byte (Enc.code s));
      (* return encode - buffer; *)
      Some (Enc.encode s, Some out)
  | _, _ => Some (0%nat, buffer)      (* return 0; *)
  end.

(** ** The decoder, [cobsDecode] *)

Module Dec.

(** The locals of [cobsDecode] and the contents of the object [buffer]
    points to. *)
Record state : Type := State {
  buffer : list byte;
  byte : nat;     (* const uint8_t *byte, as byte - data *)
  decode : nat;   (* uint8_t *decode, as decode - buffer *)
  code : Z;       (* uint8_t code *)
  block : Z       (* uint8_t block *)
}.

(** How an iteration leaves the loop body: at its end, or by [break]. *)
Inductive exit : Type :=
| Continue (s : state)
| Break (s : state).

(** The body of the [for] loop, without the step [--block]. *)
Definition body (data : list Byte.byte) (s : state) : option exit :=
  if negb (block s =? 0) then
    (* *decode++ = *byte++; *)
    b ← load data (byte s);
    buf ← store (buffer s) (decode s) b;
    Some (Continue {| buffer := buf; byte := S (byte s);
                      decode := S (decode s);
                      code := code s; block := block s |})
  else
    (* if (code != 0xff) *decode++ = 0; *)
    s1 ← (if negb (code s =? 255) then
            buf ← store (buffer s) (decode s) x00;
            Some {| buffer := buf; byte := byte s; decode := S (decode s);
                    code := code s; block := block s |}
          else Some s);
    (* block = code = *byte++; *)
    b ← load data (byte s1);
    let s2 := {| buffer := buffer s1; byte := S (byte s1);
                 decode := decode s1; code := u8 b; block := u8 b |} in
    (* if (code == 0x00) break; *)
    if code s2 =? 0 then Some (Break s2) else Some (Continue s2).

(** [--block], the step of the [for] loop. *)
Definition step (s : state) : state :=
  {| buffer := buffer s; byte := byte s; decode := decode s;
     code := code s; block := wrap8 (block s - 1) |}.

(** [for (...; byte < data + length; --block) ...] *)
Equations? loop (data : list Byte.byte) (length : nat) (s : state)
  : option state by wf (length - byte s)%nat lt :=
  loop data length s with inspect (byte s <? length)%nat := {
    | exist _ false _ => Some s
    | exist _ true Hlt with inspect (body data s) := {
        | exist _ None _ => None
        | exist _ (Some (Break s')) _ => Some s'
        | exist _ (Some (Continue s')) Hb => loop data length (step s')
      }
  }.
Proof.
  (* every iteration reads one byte: [byte s' = S (byte s)] *)
  apply Nat.ltb_lt in Hlt. unfold body in Hb.
  assert (byte s' = S (byte s)) as ->; [|lia].
  destruct (negb (block s =? 0)).
  - destruct (load data (byte s)); [simpl in Hb | discriminate].
    destruct (store (buffer s) (decode s) _); [simpl in Hb | discriminate].
    by inversion Hb.
  - destruct (negb (code s =? 255)).
    + destruct (store (buffer s) (decode s) x00); [simpl in Hb | discriminate].
      destruct (load data (byte s)); [simpl in Hb | discriminate].
      destruct (u8 _ =? 0); by inversion Hb.
    + simpl in Hb.
      destruct (load data (byte s)); [simpl in Hb | discriminate].
      destruct (u8 _ =? 0); by inversion Hb.
Qed.

(** [code = 0xff, block = 0], [byte = data], [decode = buffer]. *)
Definition init (buffer : list Byte.byte) : state :=
  {| buffer := buffer; byte := 0; decode := 0; code := 255; block := 0 |}.

End Dec.

(** [size_t cobsDecode(const uint8_t *data, size_t length, uint8_t *buffer)],
    with the same reading of the result as [cobsEncode]. *)
Definition cobsDecode (data : ptr) (length : nat) (buffer : ptr)
  : option (nat * ptr) :=
  match data, buffer with
  | Some d, Some buf =>
      s ← Dec.loop d length (Dec.init buf);
      (* return decode - buffer; *)
      Some (Dec.decode s, Some (Dec.buffer s))
  | _, _ => Some (0%nat, buffer)      (* return 0; *)
  end.

(** ** The bound, [maxCobsEncodedLength] *)

Section Bound.

(** The width of [size_t] in bits. *)
Variable SIZE_BITS : Z.

(** [return data_length + data_length / 254 + 1;] in [size_t]. *)
Definition maxCobsEncodedLength (data_length : Z) : Z :=
  (data_length + data_length / 254 + 1) mod 2 ^ SIZE_BITS.

End Bound.


(** ** Notions used to state and prove the properties *)

(** The number of bytes a caller must provide for [length] input bytes,
    as a natural number (no wrap-around). *)
Definition worst_case (length : nat) : nat := (length + length / 254 + 1)%nat.

(** The number of non-zero bytes at the front of [l]. *)
Fixpoint nonzero_prefix (l : list byte) : nat :=
  match l with
  | b :: l' => if u8 b =? 0 then O else S (nonzero_prefix l')
  | [] => O
  end.

(** The number of non-zero bytes at the end of [d]: the literals that
    follow the last zero byte of [d]. *)
Definition trailing_run (d : list byte) : nat := nonzero_prefix (reverse d).

(** A block of the encoded stream is its code byte followed by its
    literals; [lits] stands for the block whose literals are [lits]. *)
Definition block_bytes (lits : list byte) : list byte :=
  to_byte (Z.of_nat (length lits) + 1) :: lits.

(** The encoded stream made of the blocks [bs]. *)
Definition frame (bs : list (list byte)) : list byte :=
  concat (map block_bytes bs).

(** The zero byte a block stands for after its literals: none after a
    maximal block of 254 literals. *)
Definition implied_zero (lits : list byte) : list byte :=
  if (length lits =? 254)%nat then [] else [x00].

(** The data that the blocks [bs] stand for when another block follows. *)
Definition closed (bs : list (list byte)) : list byte :=
  concat (map (λ lits, lits ++ implied_zero lits) bs).

(** The literals of a block are non-zero and at most 254. *)
Definition literal_block (lits : list byte) : Prop :=
  Forall (λ b, u8 b ≠ 0) lits ∧ (length lits <= 254)%nat.

(** What the decoder emits for the blocks [bs] when the code it holds on
    reaching them is [code]. *)
Fixpoint decoded (code : Z) (bs : list (list byte)) : list byte :=
  match bs with
  | [] => []
  | lits :: bs' =>
      (if code =? 255 then [] else [x00]) ++ lits
        ++ decoded (Z.of_nat (length lits) + 1) bs'
  end.

(** The state in which an iteration of the decoder loop ends. *)
Definition Dec_exit_state (e : Dec.exit) : Dec.state :=
  match e with Dec.Continue s | Dec.Break s => s end.

(** *** Invariants of the encoder loop

    [p] is the input read so far and [rem] the number of bytes still to
    read.  The first invariant is about the locals only. *)

(** Between iterations, and after the last one unless it closed a maximal
    block: the slot at [codep] is reserved and followed by [code - 1]
    literals. *)
Definition ctl_open (p : list byte) (rem : nat) (s : Enc.state) : Prop :=
  let e := Z.of_nat (Enc.encode s) in
  let n := Z.of_nat (length p) in
  1 <= Enc.code s <= 254 ∧
  e = Z.of_nat (Enc.codep s) + Enc.code s ∧
  Enc.code s - 1 = Z.of_nat (trailing_run p) mod 254 ∧
  (rem = O → trailing_run p = O ∨ Z.of_nat (trailing_run p) mod 254 ≠ 0) ∧
  n + 1 <= e ∧
  254 * (e - n - 1) + (Enc.code s - 1) <= n ∧
  (e = n + 1 ∨ 254 * (e - n - 1) < n + Z.of_nat rem) ∧
  (Forall (λ b, u8 b ≠ 0) p → 254 * (e - n - 1) + (Enc.code s - 1) = n).

(** After the last iteration when it closed a maximal block on the last
    input byte: no slot is reserved, [codep] is [encode]. *)
Definition ctl_sealed (p : list byte) (s : Enc.state) : Prop :=
  let e := Z.of_nat (Enc.encode s) in
  let n := Z.of_nat (length p) in
  Enc.code s = 1 ∧
  Enc.codep s = Enc.encode s ∧
  (0 < trailing_run p)%nat ∧ Z.of_nat (trailing_run p) mod 254 = 0 ∧
  n + 1 <= e ∧
  254 * (e - n) <= n ∧
  (Forall (λ b, u8 b ≠ 0) p → 254 * (e - n) = n).

Definition ctl (p : list byte) (rem : nat) (s : Enc.state) : Prop :=
  ctl_open p rem s ∨ (rem = O ∧ ctl_sealed p s).

(** The second invariant is about the contents of [buffer]: the closed
    blocks [bs] up to [codep], then the slot and the literals [cur] of the
    open block. *)
Definition layout (p : list byte) (s : Enc.state) : Prop :=
  ∃ (bs : list (list byte)) (cur rest : list byte),
    Enc.buffer s = frame bs ++ rest ∧
    Enc.codep s = length (frame bs) ∧
    Forall literal_block bs ∧
    Forall (λ b, u8 b ≠ 0) cur ∧
    closed bs ++ cur = p ∧
    Enc.code s = Z.of_nat (length cur) + 1 ∧
    take (length cur) (drop 1 rest) = cur ∧
    (Enc.encode s = Enc.codep s →
       ∃ bs0 full, bs = bs0 ++ [full] ∧ length full = 254%nat).

(** ** Facts about bytes and memory objects *)

(** Linear arithmetic with division and remainder by constants. *)
Ltac div_lia := zify; Z.to_euclidean_division_equations; lia.

(** Case analysis on the conditions and stores of a computation [H]. *)
Ltac open_stores H :=
  repeat match type of H with
    | context [store ?p ?i ?v] =>
        let E := fresh "Est" in
        destruct (store p i v) eqn:E; simpl in H; [| discriminate]
    | context [if ?c then _ else _] => destruct c eqn:?; simpl in H
    end.

Lemma u8_to_byte (z : Z) : u8 (to_byte z) = wrap8 z.
Proof.
  unfold u8, to_byte, wrap8.
  assert (0 <= z mod 256 < 256) as Hr by (apply Z.mod_pos_bound; lia).
  destruct (Byte.of_N (Z.to_N (z mod 256))) as [b|] eqn:Hb; simpl.
  - apply Byte.to_of_N in Hb. rewrite Hb. lia.
  - apply Byte.of_N_None_iff in Hb. lia.
Qed.

Lemma u8_inj (a b : byte) : u8 a = u8 b → a = b.
Proof.
  unfold u8. intros H. apply N2Z.inj in H.
  pose proof (Byte.of_to_N a) as Ha. rewrite H, Byte.of_to_N in Ha.
  congruence.
Qed.

Lemma u8_x00 (b : byte) : u8 b = 0 ↔ b = x00.
Proof.
  split; [intros H; by apply u8_inj | by intros ->].
Qed.

Lemma store_Some (p : list byte) (i : nat) (v : byte) :
  (i < length p)%nat → store p i v = Some (<[i:=v]> p).
Proof. intros H. unfold store. by rewrite decide_True. Qed.

Lemma store_inv (p q : list byte) (i : nat) (v : byte) :
  store p i v = Some q → (i < length p)%nat ∧ q = <[i:=v]> p.
Proof. unfold store. case_decide; naive_solver. Qed.

(** ** The codec on the sample frames of the specification *)

Example encode_empty :
  cobsEncode (Some []) 0 (Some [x55; x55]) = Some (1%nat, Some [x01; x55]).
Proof. reflexivity. Qed.

Example decode_empty :
  cobsDecode (Some [x01]) 1 (Some [x55; x55]) = Some (0%nat, Some [x55; x55]).
Proof. reflexivity. Qed.

Example encode_single_zero :
  cobsEncode (Some [x00]) 1 (Some [x55; x55]) = Some (2%nat, Some [x01; x01]).
Proof. reflexivity. Qed.

Example decode_single_zero :
  cobsDecode (Some [x01; x01]) 2 (Some [x55; x55])
    = Some (1%nat, Some [x00; x55]).
Proof. reflexivity. Qed.

(** 254 non-zero bytes make one maximal block: 255 bytes are returned, and
    the final code write has put [0x01] at offset 255. *)
Example encode_maximal_block :
  cobsEncode (Some (replicate 254 x07)) 254 (Some (replicate 256 x55))
    = Some (255%nat, Some (xff :: replicate 254 x07 ++ [x01])).
Proof. vm_compute. reflexivity. Qed.

(** ** The loop of the decoder, unfolded once *)

Lemma Dec_loop_unfold (data : list byte) (length : nat) (s : Dec.state) :
  Dec.loop data length s =
    if (Dec.byte s <? length)%nat then
      match Dec.body data s with
      | None => None
      | Some (Dec.Break s') => Some s'
      | Some (Dec.Continue s') => Dec.loop data length (Dec.step s')
      end
    else Some s.
Proof.
  funelim (Dec.loop data length s);
    match goal with E : (_ <? _)%nat = _ |- _ => rewrite E end;
    try match goal with E : Dec.body _ _ = _ |- _ => rewrite E end;
    reflexivity.
Qed.

(** ** The three ways through the body of the encoder loop *)

(** A zero byte closes the open block and reserves the slot of the next. *)
Lemma Enc_body_zero (b : byte) (rem : nat) (s : Enc.state) :
  u8 b = 0 →
  Enc.body b rem s =
    (buf ← store (Enc.buffer s) (Enc.codep s) (to_byte (Enc.code s));
     Some {| Enc.buffer := buf; Enc.encode := S (Enc.encode s);
             Enc.codep := Enc.encode s; Enc.code := 1 |}).
Proof.
  intros Hb. unfold Enc.body, Enc.restart. rewrite Hb. reflexivity.
Qed.

(** A non-zero byte that does not fill the block is copied. *)
Lemma Enc_body_literal (b : byte) (rem : nat) (s : Enc.state) :
  u8 b ≠ 0 → 1 <= Enc.code s < 254 →
  Enc.body b rem s =
    (buf ← store (Enc.buffer s) (Enc.encode s) b;
     Some {| Enc.buffer := buf; Enc.encode := S (Enc.encode s);
             Enc.codep := Enc.codep s; Enc.code := Enc.code s + 1 |}).
Proof.
  intros Hb Hc. unfold Enc.body, Enc.write_byte.
  apply Z.eqb_neq in Hb as ->. simpl.
  destruct (store _ _ _) as [buf|]; [simpl | done].
  unfold wrap8. rewrite Z.mod_small by lia.
  destruct (Z.eqb_spec (Enc.code s + 1) 255); [lia | done].
Qed.

(** The 254th literal of a block is copied and closes the block with code
    [0xff]; the slot of the next block is reserved when input remains. *)
Lemma Enc_body_full (b : byte) (rem : nat) (s : Enc.state) :
  u8 b ≠ 0 → Enc.code s = 254 →
  Enc.body b rem s =
    (buf ← store (Enc.buffer s) (Enc.encode s) b;
     buf' ← store buf (Enc.codep s) xff;
     Some {| Enc.buffer := buf';
             Enc.encode := if (rem =? 0)%nat then S (Enc.encode s)
                           else S (S (Enc.encode s));
             Enc.codep := S (Enc.encode s); Enc.code := 1 |}).
Proof.
  intros Hb Hc. unfold Enc.body, Enc.write_byte, Enc.restart.
  apply Z.eqb_neq in Hb as ->. simpl.
  destruct (store _ _ _) as [buf|]; [simpl | done].
  rewrite Hc. simpl.
  destruct (store _ _ _) as [buf'|]; [simpl | done].
  by destruct (rem =? 0)%nat.
Qed.

(** ** The invariant on the locals of the encoder *)

Lemma trailing_run_snoc (p : list byte) (b : byte) :
  trailing_run (p ++ [b]) = if u8 b =? 0 then O else S (trailing_run p).
Proof. unfold trailing_run. by rewrite reverse_snoc. Qed.

Lemma ctl_init (rem : nat) : ∀ buf, ctl_open [] rem (Enc.init buf).
Proof.
  intros buf. unfold ctl_open. simpl. repeat split; try lia.
  - intros _. by left.
Qed.

Lemma ctl_body (p : list byte) (b : byte) (rem : nat) (s s' : Enc.state) :
  ctl_open p (S rem) s →
  Enc.body b rem s = Some s' →
  ctl (p ++ [b]) rem s'.
Proof.
  intros (Hc & He & Hrun & _ & Hlo & Hacc & Htight & Hnz) Hbody.
  destruct (Z.eq_dec (u8 b) 0) as [Hz|Hz].
  - (* a zero byte *)
    rewrite Enc_body_zero in Hbody by done.
    destruct (store _ _ _) as [buf|]; [simpl in Hbody | done].
    inversion Hbody; subst s'; clear Hbody.
    left. unfold ctl_open. simpl.
    rewrite trailing_run_snoc, length_app, Hz. simpl.
    repeat split; try lia.
    intros Hall. apply Forall_app in Hall as [_ Hall].
    by inversion Hall.
  - destruct (Z.eq_dec (Enc.code s) 254) as [Hfull|Hfull].
    + (* the literal that fills the block *)
      rewrite Enc_body_full in Hbody by done.
      destruct (store _ _ _) as [buf|]; [simpl in Hbody | done].
      destruct (store _ _ _) as [buf'|]; [simpl in Hbody | done].
      inversion Hbody; subst s'; clear Hbody.
      assert (Z.of_nat (S (trailing_run p)) mod 254 = 0) as Hrun'.
      { rewrite Nat2Z.inj_succ, <- Z.add_1_r, Z.add_mod by lia.
        rewrite <- Hrun, Hfull. reflexivity. }
      destruct rem as [|rem]; simpl.
      * right. split; [done|]. unfold ctl_sealed. simpl.
        rewrite trailing_run_snoc, length_app.
        apply Z.eqb_neq in Hz as ->. simpl.
        repeat split; try lia.
        intros Hall. apply Forall_app in Hall as [Hall _]. apply Hnz in Hall. lia.
      * left. unfold ctl_open. simpl.
        rewrite trailing_run_snoc, length_app.
        apply Z.eqb_neq in Hz as ->. simpl.
        repeat split; try lia.
        intros Hall. apply Forall_app in Hall as [Hall _]. apply Hnz in Hall. lia.
    + (* a literal *)
      rewrite Enc_body_literal in Hbody by (done || lia).
      destruct (store _ _ _) as [buf|]; [simpl in Hbody | done].
      inversion Hbody; subst s'; clear Hbody.
      assert (Z.of_nat (S (trailing_run p)) mod 254 = Enc.code s) as Hrun'.
      { rewrite Nat2Z.inj_succ, <- Z.add_1_r, Z.add_mod by lia.
        rewrite <- Hrun. rewrite (Z.mod_small 1) by lia.
        rewrite Z.mod_small; lia. }
      left. unfold ctl_open. simpl.
      rewrite trailing_run_snoc, length_app.
      apply Z.eqb_neq in Hz as ->. simpl.
      repeat split; try lia.
      intros Hall. apply Forall_app in Hall as [Hall _]. apply Hnz in Hall. lia.
Qed.

Lemma Enc_body_length (b : byte) (rem : nat) (s s' : Enc.state) :
  Enc.body b rem s = Some s' →
  length (Enc.buffer s') = length (Enc.buffer s).
Proof.
  unfold Enc.body, Enc.write_byte, Enc.restart. intros H.
  open_stores H; inversion H; subst s'; simpl;
    repeat match goal with
      | E : store _ _ _ = Some _ |- _ => apply store_inv in E as [_ ->]
      end;
    by rewrite ?length_insert.
Qed.

Lemma Enc_body_defined (p : list byte) (b : byte) (rem : nat) (s : Enc.state) :
  ctl_open p (S rem) s →
  (worst_case (length p + S rem) <= length (Enc.buffer s))%nat →
  is_Some (Enc.body b rem s).
Proof.
  intros (Hc & He & _ & _ & Hlo & Hacc & _ & _) Hcap.
  assert (Enc.encode s < length (Enc.buffer s))%nat as Hin
    by (unfold worst_case in Hcap; div_lia).
  destruct (Z.eq_dec (u8 b) 0) as [Hz|Hz].
  - rewrite Enc_body_zero by done.
    rewrite store_Some by lia. by eexists.
  - destruct (Z.eq_dec (Enc.code s) 254) as [Hfull|Hfull].
    + rewrite Enc_body_full by done.
      rewrite store_Some by lia. simpl.
      rewrite store_Some by (rewrite length_insert; lia). by eexists.
    + rewrite Enc_body_literal by (done || lia).
      rewrite store_Some by lia. by eexists.
Qed.

Lemma Enc_loop_ctl (d : list byte) :
  ∀ (length byte : nat) (s s' : Enc.state),
    (byte + length)%nat = List.length d →
    ctl_open (take byte d) length s →
    Enc.loop d byte length s = Some s' →
    ctl d 0 s' ∧ List.length (Enc.buffer s') = List.length (Enc.buffer s).
Proof.
  induction length as [|rem IH]; intros byte s s' Hlen Hctl Hloop; simpl in Hloop.
  - inversion Hloop; subst s'. rewrite take_ge in Hctl by lia.
    split; [by left | done].
  - unfold load in Hloop.
    destruct (d !! byte) as [b|] eqn:Hb; [simpl in Hloop | done].
    destruct (Enc.body b rem s) as [s1|] eqn:Hbody; [simpl in Hloop | done].
    pose proof (ctl_body _ _ _ _ _ Hctl Hbody) as Hctl1.
    rewrite <- (take_S_r _ _ _ Hb) in Hctl1.
    pose proof (Enc_body_length _ _ _ _ Hbody) as Hl1.
    destruct rem as [|rem].
    + simpl in Hloop. inversion Hloop; subst s'.
      rewrite take_ge in Hctl1 by lia. done.
    + destruct Hctl1 as [Hopen|[? _]]; [|done].
      rewrite <- Hl1. apply (IH (S byte)); [lia | done | done].
Qed.

Lemma Enc_loop_defined (d : list byte) :
  ∀ (length byte : nat) (s : Enc.state),
    (byte + length)%nat = List.length d →
    ctl_open (take byte d) length s →
    (worst_case (List.length d) <= List.length (Enc.buffer s))%nat →
    is_Some (Enc.loop d byte length s).
Proof.
  induction length as [|rem IH]; intros byte s Hlen Hctl Hcap; simpl.
  - by eexists.
  - unfold load.
    destruct (lookup_lt_is_Some_2 d byte) as [b Hb]; [lia|].
    rewrite Hb. simpl.
    destruct (Enc_body_defined (take byte d) b rem s) as [s1 Hbody]; [done | |].
    { rewrite length_take. by replace (byte `min` List.length d + S rem)%nat
        with (List.length d) by lia. }
    rewrite Hbody. simpl.
    pose proof (ctl_body _ _ _ _ _ Hctl Hbody) as Hctl1.
    rewrite <- (take_S_r _ _ _ Hb) in Hctl1.
    pose proof (Enc_body_length _ _ _ _ Hbody) as Hl1.
    destruct rem as [|rem]; [by eexists|].
    destruct Hctl1 as [Hopen|[? _]]; [|done].
    apply IH; [lia | done | by rewrite Hl1].
Qed.

(** ** What a call of the encoder on non-null pointers amounts to *)

Lemma cobsEncode_inv (d buf : list byte) (length n : nat) (out : ptr) :
  cobsEncode (Some d) length (Some buf) = Some (n, out) →
  ∃ (s : Enc.state) (o : list byte),
    Enc.loop d 0 length (Enc.init buf) = Some s ∧
    store (Enc.buffer s) (Enc.codep s) (to_byte (Enc.code s)) = Some o ∧
    out = Some o ∧ n = Enc.encode s.
Proof.
  unfold cobsEncode. intros H.
  destruct (Enc.loop _ _ _ _) as [s|]; [simpl in H | done].
  destruct (store _ _ _) as [o|] eqn:Hst; [simpl in H | done].
  inversion H; subst. by exists s, o.
Qed.

(** The call is defined when the buffer has the worst-case size. *)
Lemma cobsEncode_defined (d buf : list byte) :
  (worst_case (length d) <= length buf)%nat →
  ∃ (n : nat) (out : list byte),
    cobsEncode (Some d) (length d) (Some buf) = Some (n, Some out).
Proof.
  intros Hcap. unfold cobsEncode.
  destruct (Enc_loop_defined d (length d) 0 (Enc.init buf)) as [s Hs];
    [done | apply ctl_init | done |].
  rewrite Hs. simpl.
  apply Enc_loop_ctl in Hs as [Hctl Hlen]; [| done | apply ctl_init].
  simpl in Hlen.
  rewrite store_Some; [by eexists _, _|].
  unfold worst_case in Hcap. rewrite Hlen.
  destruct Hctl as [(Hc & He & _ & _ & Hlo & Hacc & _ & _)
                   |[_ (Hc & He & _ & _ & Hlo & Hacc & _)]]; div_lia.
Qed.

(** ** The invariant on the contents of the buffer *)

Lemma frame_snoc (bs : list (list byte)) (lits : list byte) :
  frame (bs ++ [lits]) = frame bs ++ block_bytes lits.
Proof.
  unfold frame. rewrite map_app, concat_app. simpl. by rewrite app_nil_r.
Qed.

Lemma closed_snoc (bs : list (list byte)) (lits : list byte) :
  closed (bs ++ [lits]) = closed bs ++ lits ++ implied_zero lits.
Proof.
  unfold closed. rewrite map_app, concat_app. simpl. by rewrite app_nil_r.
Qed.

(** Storing a literal after the literals [cur] of the open block. *)
Lemma layout_literal (pre rest cur buf' : list byte) (b : byte) :
  take (length cur) (drop 1 rest) = cur →
  store (pre ++ rest) (length pre + 1 + length cur) b = Some buf' →
  buf' = pre ++ <[S (length cur):=b]> rest ∧
  take (length (cur ++ [b])) (drop 1 (<[S (length cur):=b]> rest)) = cur ++ [b].
Proof.
  intros Hcur Hst. apply store_inv in Hst as [Hin ->].
  rewrite length_app in Hin. split.
  - rewrite insert_app_r_alt by lia. f_equal. f_equal. lia.
  - rewrite drop_insert_ge by lia.
    replace (S (length cur) - 1)%nat with (length cur) by lia.
    rewrite length_app. simpl. rewrite Nat.add_1_r.
    erewrite take_S_r.
    + by rewrite take_insert_ge, Hcur by lia.
    + apply list_lookup_insert_eq. rewrite length_drop. lia.
Qed.

(** Storing the code of the open block in its slot closes the block. *)
Lemma layout_close (bs : list (list byte)) (rest cur buf' : list byte) :
  take (length cur) (drop 1 rest) = cur →
  store (frame bs ++ rest) (length (frame bs))
        (to_byte (Z.of_nat (length cur) + 1)) = Some buf' →
  buf' = frame (bs ++ [cur]) ++ drop (S (length cur)) rest.
Proof.
  intros Hcur Hst. apply store_inv in Hst as [Hin ->].
  rewrite length_app in Hin.
  destruct rest as [|slot rest1]; [simpl in Hin; lia|].
  rewrite insert_app_r_alt, Nat.sub_diag by lia. simpl in *.
  rewrite drop_0 in Hcur.
  rewrite frame_snoc, <- app_assoc. f_equal.
  unfold block_bytes. simpl. f_equal.
  by rewrite <- Hcur at 1; rewrite take_drop.
Qed.

Lemma length_frame_snoc (bs : list (list byte)) (lits : list byte) :
  length (frame (bs ++ [lits])) = (length (frame bs) + 1 + length lits)%nat.
Proof. rewrite frame_snoc, length_app. unfold block_bytes. simpl. lia. Qed.

Lemma layout_init (buf : list byte) : layout [] (Enc.init buf).
Proof.
  exists [], [], buf. simpl. repeat split; try done; by constructor.
Qed.

Lemma layout_body (p : list byte) (b : byte) (rem : nat) (s s' : Enc.state) :
  ctl_open p (S rem) s →
  layout p s →
  Enc.body b rem s = Some s' →
  layout (p ++ [b]) s'.
Proof.
  intros (Hc & He & _) (bs & cur & rest & Hbuf & Hcp & Hbs & Hcur & Hp
                         & Hcode & Htake & _) Hbody.
  assert (Enc.encode s = length (frame bs) + 1 + length cur)%nat as Henc by lia.
  destruct (Z.eq_dec (u8 b) 0) as [Hz|Hz].
  - (* a zero byte closes [cur] *)
    rewrite Enc_body_zero in Hbody by done.
    destruct (store _ _ _) as [buf'|] eqn:Hst; [simpl in Hbody | done].
    inversion Hbody; subst s'; clear Hbody.
    rewrite Hbuf, Hcp, Hcode in Hst.
    apply layout_close in Hst as ->; [|done].
    exists (bs ++ [cur]), [], (drop (S (length cur)) rest). simpl.
    repeat split; try done.
    + rewrite length_frame_snoc. lia.
    + apply Forall_app. split; [done|].
      apply Forall_singleton. split; [done | lia].
    + rewrite closed_snoc, app_nil_r, app_assoc, Hp. f_equal.
      unfold implied_zero.
      destruct (Nat.eqb_spec (length cur) 254); [lia|].
      apply u8_x00 in Hz. by subst b.
    + lia.
  - destruct (Z.eq_dec (Enc.code s) 254) as [Hfull|Hfull].
    + (* the literal that fills [cur] *)
      rewrite Enc_body_full in Hbody by done.
      destruct (store _ _ _) as [buf1|] eqn:Hst1; [simpl in Hbody | done].
      destruct (store buf1 _ _) as [buf2|] eqn:Hst2; [simpl in Hbody | done].
      inversion Hbody; subst s'; clear Hbody.
      rewrite Hbuf, Henc in Hst1.
      apply layout_literal in Hst1 as [-> Htake1]; [|done].
      assert (length (cur ++ [b]) = 254%nat) as Hlen
        by (rewrite length_app; simpl; lia).
      replace xff with (to_byte (Z.of_nat (length (cur ++ [b])) + 1)) in Hst2
        by by rewrite Hlen.
      rewrite Hcp in Hst2.
      apply layout_close in Hst2 as ->; [|done].
      exists (bs ++ [cur ++ [b]]), [],
        (drop (S (length (cur ++ [b]))) (<[S (length cur):=b]> rest)).
      simpl. repeat split; try done.
      * rewrite length_frame_snoc. lia.
      * apply Forall_app. split; [done|].
        apply Forall_singleton. split; [|lia].
        apply Forall_app. split; [done | by apply Forall_singleton].
      * rewrite closed_snoc, app_nil_r. unfold implied_zero.
        rewrite Hlen. simpl. by rewrite app_nil_r, app_assoc, Hp.
      * intros _. by exists bs, (cur ++ [b]).
    + (* a literal joins [cur] *)
      rewrite Enc_body_literal in Hbody by (done || lia).
      destruct (store _ _ _) as [buf1|] eqn:Hst1; [simpl in Hbody | done].
      inversion Hbody; subst s'; clear Hbody.
      rewrite Hbuf, Henc in Hst1.
      apply layout_literal in Hst1 as [-> Htake1]; [|done].
      exists bs, (cur ++ [b]), (<[S (length cur):=b]> rest).
      simpl. repeat split; try done.
      * apply Forall_app. split; [done | by apply Forall_singleton].
      * by rewrite app_assoc, Hp.
      * rewrite length_app. simpl. lia.
      * lia.
Qed.

Lemma Enc_loop_layout (d : list byte) :
  ∀ (length byte : nat) (s s' : Enc.state),
    (byte + length)%nat = List.length d →
    ctl_open (take byte d) length s →
    layout (take byte d) s →
    Enc.loop d byte length s = Some s' →
    layout d s'.
Proof.
  induction length as [|rem IH]; intros byte s s' Hlen Hctl Hlay Hloop;
    simpl in Hloop.
  - inversion Hloop; subst s'. by rewrite take_ge in Hlay by lia.
  - unfold load in Hloop.
    destruct (d !! byte) as [b|] eqn:Hb; [simpl in Hloop | done].
    destruct (Enc.body b rem s) as [s1|] eqn:Hbody; [simpl in Hloop | done].
    pose proof (ctl_body _ _ _ _ _ Hctl Hbody) as Hctl1.
    pose proof (layout_body _ _ _ _ _ Hctl Hlay Hbody) as Hlay1.
    rewrite <- (take_S_r _ _ _ Hb) in Hctl1, Hlay1.
    destruct rem as [|rem].
    + simpl in Hloop. inversion Hloop; subst s'.
      by rewrite take_ge in Hlay1 by lia.
    + destruct Hctl1 as [Hopen|[? _]]; [|done].
      apply (IH (S byte) s1); [lia | done | done | done].
Qed.

(** The output of the encoder is a stream of blocks that stands for the
    input. *)
Lemma cobsEncode_frame (d buf : list byte) (n : nat) (out : list byte) :
  cobsEncode (Some d) (length d) (Some buf) = Some (n, Some out) →
  ∃ (bs : list (list byte)) (cur tail : list byte),
    out = frame (bs ++ [cur]) ++ tail ∧
    n = length (frame (bs ++ [cur])) ∧
    Forall literal_block (bs ++ [cur]) ∧
    d = closed bs ++ cur ∧
    length out = length buf.
Proof.
  intros H. apply cobsEncode_inv in H as (s & o & Hloop & Hst & Ho & ->).
  inversion Ho; subst o; clear Ho.
  pose proof (Enc_loop_ctl d (length d) 0 (Enc.init buf) s eq_refl
                (ctl_init _ _) Hloop) as [Hctl Hlen].
  pose proof (Enc_loop_layout d (length d) 0 (Enc.init buf) s eq_refl
                (ctl_init _ _) (layout_init _) Hloop)
    as (bs & cur & rest & Hbuf & Hcp & Hbs & Hcur & Hp & Hcode & Htake & Hseal).
  assert (length out = length buf) as Hout.
  { apply store_inv in Hst as [_ ->]. by rewrite length_insert. }
  destruct Hctl as [(Hc & He & _)|[_ (Hc & He & _)]].
  - (* the last block is open: the final store closes it *)
    rewrite Hbuf, Hcp, Hcode in Hst.
    apply layout_close in Hst as ->; [|done].
    exists bs, cur, (drop (S (length cur)) rest).
    repeat split; try done.
    + rewrite length_frame_snoc. lia.
    + apply Forall_app. split; [done|].
      apply Forall_singleton. split; [done | lia].
  - (* the last block is maximal and closed: the final store is past it *)
    destruct (Hseal (eq_sym He)) as (bs0 & full & -> & Hfull).
    destruct cur; [|simpl in Hcode; lia].
    apply store_inv in Hst as [Hin ->].
    exists bs0, full, (<[0%nat:=to_byte (Enc.code s)]> rest).
    rewrite Hbuf, Hcp. rewrite insert_app_r_alt, Nat.sub_diag by lia.
    repeat split; try done.
    + lia.
    + rewrite <- Hp, closed_snoc, app_nil_r. unfold implied_zero.
      rewrite Hfull. simpl. by rewrite app_nil_r.
    + simpl in Hlen.
      by rewrite length_app, length_insert, <- Hlen, Hbuf, length_app.
Qed.

(** ** The decoder on any input: one byte read, at most one written *)

Lemma Dec_body_inv (data : list byte) (s : Dec.state) (e : Dec.exit) :
  Dec.body data s = Some e →
  Dec.byte (Dec_exit_state e) = S (Dec.byte s) ∧
  (Dec.decode (Dec_exit_state e) <= S (Dec.decode s))%nat ∧
  length (Dec.buffer (Dec_exit_state e)) = length (Dec.buffer s).
Proof.
  unfold Dec.body. intros H.
  destruct (negb (Dec.block s =? 0)).
  - destruct (load data (Dec.byte s)); [simpl in H | done].
    destruct (store _ _ _) eqn:Hst; [simpl in H | done].
    apply store_inv in Hst as [_ ->].
    inversion H; subst e; simpl. rewrite length_insert. lia.
  - destruct (negb (Dec.code s =? 255)).
    + destruct (store _ _ _) eqn:Hst; [simpl in H | done].
      apply store_inv in Hst as [_ ->].
      destruct (load data (Dec.byte s)); [simpl in H | done].
      destruct (u8 _ =? 0); inversion H; subst e; simpl;
        rewrite length_insert; lia.
    + simpl in H.
      destruct (load data (Dec.byte s)); [simpl in H | done].
      destruct (u8 _ =? 0); inversion H; subst e; simpl; lia.
Qed.

Lemma Dec_body_defined (data : list byte) (s : Dec.state) :
  (Dec.byte s < length data)%nat →
  (Dec.decode s < length (Dec.buffer s))%nat →
  is_Some (Dec.body data s).
Proof.
  intros Hin Hout. unfold Dec.body, load.
  destruct (lookup_lt_is_Some_2 data (Dec.byte s) Hin) as [b Hb].
  destruct (negb (Dec.block s =? 0)).
  - rewrite Hb. simpl. rewrite store_Some by done. by eexists.
  - destruct (negb (Dec.code s =? 255)).
    + rewrite store_Some by done. simpl. rewrite Hb. simpl.
      destruct (u8 b =? 0); by eexists.
    + simpl. rewrite Hb. simpl. destruct (u8 b =? 0); by eexists.
Qed.

Lemma Dec_loop_inv (data : list byte) (length : nat) :
  ∀ (k : nat) (s s' : Dec.state),
    (length - Dec.byte s)%nat = k →
    (Dec.decode s <= Dec.byte s <= length)%nat →
    Dec.loop data length s = Some s' →
    (Dec.decode s' <= Dec.byte s' <= length)%nat ∧
    List.length (Dec.buffer s') = List.length (Dec.buffer s).
Proof.
  induction k as [|k IH]; intros s s' Hk Hle Hloop;
    rewrite Dec_loop_unfold in Hloop.
  - destruct (Nat.ltb_spec (Dec.byte s) length); [lia|].
    by inversion Hloop; subst s'.
  - destruct (Nat.ltb_spec (Dec.byte s) length); [|lia].
    destruct (Dec.body data s) as [e|] eqn:Hbody; [|done].
    apply Dec_body_inv in Hbody as (Hb & Hd & Hl).
    destruct e as [s1|s1]; simpl in *.
    + rewrite <- Hl. apply (IH (Dec.step s1)); [simpl; lia | simpl; lia | done].
    + inversion Hloop; subst s'. split; [lia | done].
Qed.

Lemma Dec_loop_defined (data : list byte) (length : nat) :
  (length <= List.length data)%nat →
  ∀ (k : nat) (s : Dec.state),
    (length - Dec.byte s)%nat = k →
    (Dec.decode s <= Dec.byte s)%nat →
    (length <= List.length (Dec.buffer s))%nat →
    is_Some (Dec.loop data length s).
Proof.
  intros Hdata.
  induction k as [|k IH]; intros s Hk Hle Hcap; rewrite Dec_loop_unfold.
  - destruct (Nat.ltb_spec (Dec.byte s) length); [lia | by eexists].
  - destruct (Nat.ltb_spec (Dec.byte s) length); [|lia].
    destruct (Dec_body_defined data s) as [e Hbody]; [lia | lia |].
    rewrite Hbody.
    apply Dec_body_inv in Hbody as (Hb & Hd & Hl).
    destruct e as [s1|s1]; simpl in *; [|by eexists].
    apply (IH (Dec.step s1)); simpl; lia.
Qed.

(** ** The decoder on a stream of blocks *)

(** With [block] literals still to copy, the loop copies them. *)
Lemma Dec_copy (data : list byte) (length : nat) :
  ∀ (lits pin tail pre junk : list byte) (s : Dec.state),
    data = pin ++ lits ++ tail →
    Dec.byte s = List.length pin →
    (List.length pin + List.length lits <= length)%nat →
    Dec.block s = Z.of_nat (List.length lits) →
    (List.length lits <= 255)%nat →
    Dec.buffer s = pre ++ junk →
    Dec.decode s = List.length pre →
    (List.length lits <= List.length junk)%nat →
    Dec.loop data length s =
      Dec.loop data length
        {| Dec.buffer := pre ++ lits ++ drop (List.length lits) junk;
           Dec.byte := (List.length pin + List.length lits)%nat;
           Dec.decode := (List.length pre + List.length lits)%nat;
           Dec.code := Dec.code s; Dec.block := 0 |}.
Proof.
  induction lits as [|b lits IH];
    intros pin tail pre junk s Hdata Hbyte Hlen Hblock Hmax Hbuf Hdec Hcap.
  - destruct s; simpl in *; subst. by rewrite !Nat.add_0_r, drop_0.
  - simpl in Hlen, Hcap, Hblock, Hmax. rewrite Dec_loop_unfold.
    destruct (Nat.ltb_spec (Dec.byte s) length); [|lia].
    assert (data !! Dec.byte s = Some b) as Hload
      by by rewrite Hdata, Hbyte, lookup_app_r, Nat.sub_diag by lia.
    unfold Dec.body, load.
    destruct (Z.eqb_spec (Dec.block s) 0); [lia|]. simpl.
    rewrite Hload. simpl.
    destruct junk as [|j junk]; [simpl in Hcap; lia|].
    rewrite Hbuf, Hdec, store_Some by (rewrite length_app; simpl; lia).
    simpl. rewrite insert_app_r_alt, Nat.sub_diag by lia. simpl.
    rewrite (IH (pin ++ [b]) tail (pre ++ [b]) junk).
    + f_equal. simpl. rewrite !length_app. simpl.
      rewrite <- !app_assoc. simpl. f_equal; lia.
    + by rewrite Hdata, <- app_assoc.
    + simpl. rewrite Hbyte, length_app. simpl. lia.
    + rewrite length_app. simpl. lia.
    + simpl. unfold wrap8. rewrite Hblock, Z.mod_small; lia.
    + lia.
    + simpl. by rewrite <- app_assoc.
    + simpl. rewrite length_app. simpl. lia.
    + simpl in Hcap. lia.
Qed.

Lemma u8_block_code (lits : list byte) :
  literal_block lits →
  u8 (to_byte (Z.of_nat (length lits) + 1)) = Z.of_nat (length lits) + 1.
Proof.
  intros [_ Hlen]. rewrite u8_to_byte. unfold wrap8.
  rewrite Z.mod_small; lia.
Qed.

(** At a block boundary the loop decodes the blocks that make up the rest
    of the input. *)
Lemma Dec_blocks (data : list byte) (length : nat) :
  ∀ (bs : list (list byte)) (pin tail pre junk : list byte) (s : Dec.state),
    data = pin ++ frame bs ++ tail →
    Dec.byte s = List.length pin →
    length = (List.length pin + List.length (frame bs))%nat →
    Dec.block s = 0 →
    Forall literal_block bs →
    Dec.buffer s = pre ++ junk →
    Dec.decode s = List.length pre →
    (List.length (decoded (Dec.code s) bs) <= List.length junk)%nat →
    ∃ s' : Dec.state,
      Dec.loop data length s = Some s' ∧
      Dec.buffer s' =
        pre ++ decoded (Dec.code s) bs
            ++ drop (List.length (decoded (Dec.code s) bs)) junk ∧
      Dec.decode s' =
        (List.length pre + List.length (decoded (Dec.code s) bs))%nat.
Proof.
  induction bs as [|lits bs IH];
    intros pin tail pre junk s Hdata Hbyte Hlen Hblock Hbs Hbuf Hdec Hcap.
  - exists s. simpl in *. rewrite Dec_loop_unfold.
    destruct (Nat.ltb_spec (Dec.byte s) length); [lia|].
    by rewrite drop_0, Nat.add_0_r.
  - apply Forall_cons in Hbs as [Hlits Hbs].
    pose proof Hlits as [_ Hmax].
    set (c := to_byte (Z.of_nat (List.length lits) + 1)).
    assert (frame (lits :: bs) = c :: lits ++ frame bs) as Hframe by done.
    rewrite Hframe in Hdata, Hlen. simpl in Hlen, Hcap.
    set (sep := if Dec.code s =? 255 then [] else [x00]) in *.
    rewrite !length_app in Hcap. rewrite length_app in Hlen.
    (* the implied zero of the block before, if any *)
    assert (∃ s1 : Dec.state,
              (if negb (Dec.code s =? 255) then
                 buf ← store (Dec.buffer s) (Dec.decode s) x00;
                 Some {| Dec.buffer := buf; Dec.byte := Dec.byte s;
                         Dec.decode := S (Dec.decode s);
                         Dec.code := Dec.code s; Dec.block := Dec.block s |}
               else Some s) = Some s1 ∧
              Dec.buffer s1 = (pre ++ sep) ++ drop (List.length sep) junk ∧
              Dec.decode s1 = List.length (pre ++ sep) ∧
              Dec.byte s1 = Dec.byte s) as (s1 & Hs1 & Hbuf1 & Hdec1 & Hbyte1).
    { subst sep. destruct (Dec.code s =? 255); simpl.
      - exists s. by rewrite app_nil_r, drop_0, Hbuf, Hdec.
      - destruct junk as [|j junk]; [simpl in Hcap; lia|].
        rewrite Hbuf, Hdec, store_Some by (rewrite length_app; simpl; lia).
        simpl. eexists. split; [done|]. simpl.
        rewrite insert_app_r_alt, Nat.sub_diag, length_app by lia. simpl.
        rewrite <- app_assoc. repeat split; try done. lia. }
    (* the code byte of the block *)
    assert (data !! Dec.byte s1 = Some c) as Hload
      by by rewrite Hbyte1, Hdata, Hbyte, lookup_app_r, Nat.sub_diag by lia.
    pose proof (u8_block_code lits Hlits) as Hc. fold c in Hc.
    rewrite Dec_loop_unfold.
    destruct (Nat.ltb_spec (Dec.byte s) length); [|lia].
    unfold Dec.body, load.
    destruct (Z.eqb_spec (Dec.block s) 0); [simpl | lia].
    rewrite Hs1. simpl. rewrite Hload. simpl.
    destruct (Z.eqb_spec (u8 c) 0); [lia|].
    (* its literals *)
    rewrite (Dec_copy data length lits (pin ++ [c]) (frame bs ++ tail)
               (pre ++ sep) (drop (List.length sep) junk));
      [ | rewrite Hdata; simpl; by rewrite <- !app_assoc
        | simpl; rewrite Hbyte1, Hbyte, length_app; simpl; lia
        | rewrite length_app; simpl; lia
        | simpl; unfold wrap8; rewrite Hc, Z.mod_small; lia
        | lia
        | done
        | done
        | rewrite length_drop; lia ].
    simpl.
    (* the blocks that follow *)
    edestruct (IH ((pin ++ [c]) ++ lits) tail ((pre ++ sep) ++ lits)
                 (drop (List.length lits) (drop (List.length sep) junk)))
      as (s' & Hloop & Hbuf' & Hdec'); [ | | | | done | | | | ].
    8: { exists s'. split; [exact Hloop|]. simpl in Hbuf', Hdec'.
         rewrite Hc in Hbuf', Hdec'.
         rewrite Hbuf', Hdec', !drop_drop, !length_app.
         rewrite <- !app_assoc.
         split; [done | subst sep; lia]. }
    + rewrite Hdata. simpl. by rewrite <- !app_assoc.
    + simpl. by rewrite !length_app.
    + rewrite !length_app. simpl. lia.
    + done.
    + simpl. by rewrite <- !app_assoc.
    + simpl. by rewrite !length_app.
    + simpl. rewrite Hc, !length_drop. lia.
Qed.

Lemma decoded_snoc (bs : list (list byte)) (cur : list byte) :
  ∀ code : Z,
    decoded code (bs ++ [cur]) =
      (if code =? 255 then [] else [x00]) ++ closed bs ++ cur.
Proof.
  induction bs as [|lits bs IH]; intros code; simpl.
  - by rewrite app_nil_r.
  - rewrite IH. unfold closed. simpl. unfold implied_zero.
    rewrite <- !app_assoc. do 2 f_equal.
    destruct (Nat.eqb_spec (length lits) 254) as [->|Hne]; [done|].
    destruct (Z.eqb_spec (Z.of_nat (length lits) + 1) 255); [lia | done].
Qed.

(** Every byte of a stream of blocks is non-zero. *)
Lemma frame_nonzero (bs : list (list byte)) :
  Forall literal_block bs → Forall (λ b, b ≠ x00) (frame bs).
Proof.
  induction 1 as [|lits bs Hlits _ IH]; [by constructor|].
  change (frame (lits :: bs)) with (block_bytes lits ++ frame bs).
  apply Forall_app. split; [|exact IH].
  constructor.
  - intros Hz. apply u8_x00 in Hz. rewrite u8_block_code in Hz by done. lia.
  - destruct Hlits as [Hnz _].
    eapply Forall_impl; [exact Hnz|]. intros b Hb ->. by apply Hb.
Qed.

(** ** The round trip *)

(** C1. Round-trip law: for every byte sequence [d] and every output buffer
    of the worst-case size, the encoder returns a count [n], and the decoder
    run on the encoder's output with length [n] returns the count
    [length d] and leaves exactly the bytes of [d] at the start of its
    buffer (which only has to hold [length d] bytes). *)
Theorem cobs_roundtrip (d buf buf' : list byte) :
  (worst_case (length d) <= length buf)%nat →
  (length d <= length buf')%nat →
  ∃ (n : nat) (out : list byte),
    cobsEncode (Some d) (length d) (Some buf) = Some (n, Some out) ∧
    cobsDecode (Some out) n (Some buf')
      = Some (length d, Some (d ++ drop (length d) buf')).
Proof.
  intros Hcap Hcap'.
  destruct (cobsEncode_defined d buf Hcap) as (n & out & Henc).
  exists n, out. split; [done|].
  apply cobsEncode_frame in Henc as (bs & cur & tail & -> & -> & Hbs & -> & _).
  unfold cobsDecode.
  destruct (Dec_blocks (frame (bs ++ [cur]) ++ tail)
              (length (frame (bs ++ [cur]))) (bs ++ [cur]) [] tail [] buf'
              (Dec.init buf'))
    as (s' & Hloop & Hbuf & Hdec); try done.
  { simpl. by rewrite decoded_snoc. }
  rewrite Hloop. simpl. rewrite Hbuf, Hdec.
  simpl. by rewrite decoded_snoc.
Qed.

Lemma cobs_roundtrip_witness :
  ∃ (n : nat) (out : list byte),
    cobsEncode (Some [x11; x00; x22]) 3 (Some [x55; x55; x55; x55])
      = Some (n, Some out) ∧
    cobsDecode (Some out) n (Some [xee; xee; xee; xee])
      = Some (3%nat, Some [x11; x00; x22; xee]).
Proof.
  apply (cobs_roundtrip [x11; x00; x22] [x55; x55; x55; x55]
           [xee; xee; xee; xee]); vm_compute; lia.
Defined.

(** ** The encoded bytes are non-zero *)

(** C2. No-zero invariant: for every byte sequence [d] and every output
    buffer of the worst-case size, the encoder returns a count [n], the
    buffer holds at least [n] bytes, and none of its first [n] bytes is
    zero. *)
Theorem cobsEncode_no_zero (d buf : list byte) :
  (worst_case (length d) <= length buf)%nat →
  ∃ (n : nat) (out : list byte),
    cobsEncode (Some d) (length d) (Some buf) = Some (n, Some out) ∧
    length (take n out) = n ∧
    Forall (λ b, b ≠ x00) (take n out).
Proof.
  intros Hcap.
  destruct (cobsEncode_defined d buf Hcap) as (n & out & Henc).
  exists n, out. split; [done|].
  apply cobsEncode_frame in Henc as (bs & cur & tail & -> & -> & Hbs & _).
  rewrite take_app_length. split; [done|].
  by apply frame_nonzero.
Qed.

Lemma cobsEncode_no_zero_witness :
  ∃ (n : nat) (out : list byte),
    cobsEncode (Some [x00; x00; x07]) 3 (Some [x00; x00; x00; x00; x00])
      = Some (n, Some out) ∧
    length (take n out) = n ∧
    Forall (λ b, b ≠ x00) (take n out).
Proof.
  apply (cobsEncode_no_zero [x00; x00; x07] [x00; x00; x00; x00; x00]).
  vm_compute. lia.
Defined.

(** ** Null pointers *)

(** C7. Null-reference error handling: for every length and every contents
    of the objects, if [data] or [buffer] is null then [cobsEncode] and
    [cobsDecode] both return 0, and the object [buffer] points to (when
    there is one) is left as it was: nothing is written. *)
Theorem null_pointer_returns_0 (data buffer : ptr) (length : nat) :
  data = NULL ∨ buffer = NULL →
  cobsEncode data length buffer = Some (0%nat, buffer) ∧
  cobsDecode data length buffer = Some (0%nat, buffer).
Proof.
  unfold NULL. intros [-> | ->]; [done|].
  by destruct data.
Qed.

Lemma null_pointer_returns_0_witness :
  cobsEncode NULL 3 (Some [x55; x55]) = Some (0%nat, Some [x55; x55]) ∧
  cobsDecode NULL 3 (Some [x55; x55]) = Some (0%nat, Some [x55; x55]).
Proof.
  apply (null_pointer_returns_0 NULL (Some [x55; x55]) 3).
  left. reflexivity.
Defined.

(** ** The decoder never expands *)

(** C8. Decode never expands: for every input of [n] bytes, well-formed or
    not, and every output buffer of at least [n] bytes, the decoder returns
    a count that is at most [n], and it stays within its buffer. *)
Theorem cobsDecode_never_expands (data buf : list byte) (n : nat) :
  (n <= length data)%nat →
  (n <= length buf)%nat →
  ∃ (count : nat) (out : list byte),
    cobsDecode (Some data) n (Some buf) = Some (count, Some out) ∧
    (count <= n)%nat ∧
    length out = length buf.
Proof.
  intros Hdata Hcap. unfold cobsDecode.
  destruct (Dec_loop_defined data n Hdata n (Dec.init buf)) as [s Hs];
    [simpl; lia | simpl; lia | done |].
  rewrite Hs. simpl. exists (Dec.decode s), (Dec.buffer s).
  split; [done|].
  apply (Dec_loop_inv data n n (Dec.init buf)) in Hs as [Hle Hlen];
    [| simpl; lia | simpl; lia].
  split; [lia | done].
Qed.

Lemma cobsDecode_never_expands_witness :
  ∃ (count : nat) (out : list byte),
    cobsDecode (Some [x05; x11; x00; x01; x01]) 5
               (Some [x55; x55; x55; x55; x55])
      = Some (count, Some out) ∧
    (count <= 5)%nat ∧
    length out = 5%nat.
Proof.
  apply (cobsDecode_never_expands [x05; x11; x00; x01; x01]
           [x55; x55; x55; x55; x55] 5); vm_compute; lia.
Defined.

(** ** The count of the encoder is never 0 *)

(** Every iteration advances [encode]. *)
Lemma Enc_body_encode (b : byte) (rem : nat) (s s' : Enc.state) :
  Enc.body b rem s = Some s' → (Enc.encode s < Enc.encode s')%nat.
Proof.
  unfold Enc.body, Enc.write_byte, Enc.restart. intros H.
  destruct (Z.eqb_spec (u8 b) 0); simpl in H;
    open_stores H; inversion H; subst s'; simpl; lia.
Qed.

Lemma Enc_loop_encode (d : list byte) :
  ∀ (length byte : nat) (s s' : Enc.state),
    Enc.loop d byte length s = Some s' → (Enc.encode s <= Enc.encode s')%nat.
Proof.
  induction length as [|rem IH]; intros byte s s' H; simpl in H.
  - by inversion H.
  - destruct (load d byte) as [b|]; [simpl in H | done].
    destruct (Enc.body b rem s) as [s1|] eqn:Hbody; [simpl in H | done].
    apply Enc_body_encode in Hbody. apply IH in H. lia.
Qed.

(** C10. For non-null [data] and [buffer] and every input length, 0
    included, the encoder returns a count of at least 1 (and does return
    when the buffer has the worst-case size); so a call of [cobsEncode]
    that returns 0 had a null pointer.  The decoder, on the contrary,
    returns 0 for the valid input [{0x01}]. *)
Theorem cobsEncode_count_positive :
  (∀ (d buf : list byte),
     (worst_case (length d) <= length buf)%nat →
     ∃ (n : nat) (out : list byte),
       cobsEncode (Some d) (length d) (Some buf) = Some (n, Some out) ∧
       (1 <= n)%nat) ∧
  (∀ (data buffer out : ptr) (length : nat),
     cobsEncode data length buffer = Some (0%nat, out) →
     data = NULL ∨ buffer = NULL) ∧
  (∀ buf : list byte,
     cobsDecode (Some [x01]) 1 (Some buf) = Some (0%nat, Some buf)).
Proof.
  assert (∀ (d buf : list byte) (length n : nat) (out : ptr),
            cobsEncode (Some d) length (Some buf) = Some (n, out) →
            (1 <= n)%nat) as Hpos.
  { intros d buf length n out H.
    apply cobsEncode_inv in H as (s & o & Hloop & _ & _ & ->).
    by apply Enc_loop_encode in Hloop. }
  split; [|split].
  - intros d buf Hcap.
    destruct (cobsEncode_defined d buf Hcap) as (n & out & Henc).
    exists n, out. split; [done|]. by eapply Hpos.
  - intros [d|] [buf|] out length H; unfold NULL; auto.
    apply Hpos in H. lia.
  - intros buf. unfold cobsDecode.
    rewrite Dec_loop_unfold. simpl.
    rewrite Dec_loop_unfold. simpl. by destruct buf.
Qed.

Lemma cobsEncode_count_positive_witness :
  (∃ (n : nat) (out : list byte),
     cobsEncode (Some []) 0 (Some [x55]) = Some (n, Some out) ∧ (1 <= n)%nat) ∧
  (NULL = NULL ∨ Some [x55] = NULL).
Proof.
  destruct cobsEncode_count_positive as (Hpos & Hnull & _).
  split.
  - apply (Hpos [] [x55]). vm_compute. lia.
  - apply (Hnull NULL (Some [x55]) (Some [x55]) 4%nat). reflexivity.
Defined.

(** ** A zero code byte ends the decoding *)

(** C5, as stated, fails: on [{0x02, 0xAA, 0x00, 0xFF}] with length 4 the
    decoder returns 2, and the 2 bytes it reports are [{0xAA, 0x00}], not
    [{0xAA}] (shown on a buffer filled with [0x55]). *)
Lemma delimiter_truncation_counterexample :
  cobsDecode (Some [x02; xaa; x00; xff]) 4 (Some [x55; x55; x55; x55])
    = Some (2%nat, Some [xaa; x00; x55; x55]) ∧
  ¬ (∃ (n : nat) (out : list byte),
       cobsDecode (Some [x02; xaa; x00; xff]) 4 (Some [x55; x55; x55; x55])
         = Some (n, Some out) ∧
       take n out = [xaa]).
Proof.
  split; [reflexivity|].
  intros (n & out & H & Hout).
  vm_compute in H. inversion H; subst. discriminate.
Qed.

(** C5, amended. Delimiter truncation: on [{0x02, 0xAA, 0x00, 0xFF}] with
    length 4 the decoder stops at the zero code byte at offset 2, which it
    consumes and does not emit ([byte] ends at offset 3, so [0xFF] is not
    read), and returns 2: it has written [0xAA] and then [0x00], the zero
    that the block of code [0x02] stands for, which it emits before it reads
    the next code byte. *)
Theorem delimiter_truncation (buf : list byte) :
  (2 <= length buf)%nat →
  Dec.loop [x02; xaa; x00; xff] 4 (Dec.init buf)
    = Some {| Dec.buffer := <[1%nat:=x00]> (<[0%nat:=xaa]> buf);
              Dec.byte := 3; Dec.decode := 2;
              Dec.code := 0; Dec.block := 0 |} ∧
  cobsDecode (Some [x02; xaa; x00; xff]) 4 (Some buf)
    = Some (2%nat, Some (<[1%nat:=x00]> (<[0%nat:=xaa]> buf))).
Proof.
  intros Hcap.
  destruct buf as [|a [|b buf]]; [simpl in Hcap; lia | simpl in Hcap; lia |].
  assert (Dec.loop [x02; xaa; x00; xff] 4 (Dec.init (a :: b :: buf))
          = Some {| Dec.buffer := xaa :: x00 :: buf;
                    Dec.byte := 3; Dec.decode := 2;
                    Dec.code := 0; Dec.block := 0 |}) as Hloop.
  { rewrite Dec_loop_unfold. simpl.
    rewrite Dec_loop_unfold. simpl.
    rewrite Dec_loop_unfold. simpl. reflexivity. }
  split; [exact Hloop|].
  unfold cobsDecode. by rewrite Hloop.
Qed.

Lemma delimiter_truncation_witness :
  Dec.loop [x02; xaa; x00; xff] 4 (Dec.init [x55; x55; x55])
    = Some {| Dec.buffer := [xaa; x00; x55];
              Dec.byte := 3; Dec.decode := 2;
              Dec.code := 0; Dec.block := 0 |} ∧
  cobsDecode (Some [x02; xaa; x00; xff]) 4 (Some [x55; x55; x55])
    = Some (2%nat, Some [xaa; x00; x55]).
Proof.
  apply (delimiter_truncation [x55; x55; x55]). simpl. lia.
Defined.

(** ** Closing a block and opening the next *)

(** C4, as stated, fails: it says that the encoder reserves a new code slot
    when it closes a block unless the block ends on a zero byte that is the
    last byte of the input.  On the zero byte that ends the input [{0x00}]
    ([rem = 0]) the encoder does reserve a slot ([encode] is one past
    [codep]). *)
Lemma block_opening_counterexample :
  ¬ (∀ (b : byte) (rem : nat) (s s' : Enc.state),
       Enc.body b rem s = Some s' →
       u8 b = 0 ∨ wrap8 (Enc.code s + 1) = 255 →
       (Enc.encode s' = S (Enc.codep s') ↔ ¬ (u8 b = 0 ∧ rem = O))).
Proof.
  intros H.
  specialize (H x00 O (Enc.init [x55; x55])
                {| Enc.buffer := [x01; x55]; Enc.encode := 2;
                   Enc.codep := 1; Enc.code := 1 |}
                eq_refl (or_introl eq_refl)).
  simpl in H. destruct H as [H _]. by apply H.
Qed.

(** C4, amended. Encoder block-opening rule: whenever the encoder closes a
    block (the current input byte is zero, or the code, incremented for a
    non-zero byte, has reached 0xFF), it writes the code of the block into
    the reserved slot, resets the code to 1 and makes the position after
    the block the next slot; it reserves that slot (steps [encode] over it)
    when the byte is zero or input remains, that is, always except when the
    block closed is a maximal block closed on a non-zero byte that is the
    last byte of the input. *)
Theorem block_opening (b : byte) (rem : nat) (s s' : Enc.state) :
  let code1 := if u8 b =? 0 then Enc.code s else wrap8 (Enc.code s + 1) in
  let encode1 := if u8 b =? 0 then Enc.encode s else S (Enc.encode s) in
  Enc.body b rem s = Some s' →
  u8 b = 0 ∨ code1 = 255 →
  Enc.buffer s' !! Enc.codep s = Some (to_byte code1) ∧
  Enc.code s' = 1 ∧
  Enc.codep s' = encode1 ∧
  (Enc.encode s' = S (Enc.codep s') ↔ u8 b = 0 ∨ rem ≠ O) ∧
  (Enc.encode s' = Enc.codep s' ↔ u8 b ≠ 0 ∧ rem = O).
Proof.
  intros code1 encode1 Hbody Hclose. subst code1 encode1.
  unfold Enc.body, Enc.write_byte, Enc.restart in Hbody.
  destruct (Z.eqb_spec (u8 b) 0) as [Hz|Hz]; simpl in Hbody.
  - destruct (store _ _ _) as [buf|] eqn:Hst; [simpl in Hbody | done].
    apply store_inv in Hst as [Hin ->].
    inversion Hbody; subst s'; simpl.
    rewrite list_lookup_insert_eq by done.
    repeat split; try done; try lia; auto.
  - destruct Hclose as [?|Hfull]; [done|].
    destruct (store _ _ _) as [buf|] eqn:Hst; [simpl in Hbody | done].
    rewrite Hfull in Hbody. simpl in Hbody.
    destruct (store buf _ _) as [buf'|] eqn:Hst'; [simpl in Hbody | done].
    apply store_inv in Hst' as [Hin ->].
    inversion Hbody; subst s'; simpl.
    rewrite list_lookup_insert_eq, Hfull by done.
    destruct rem; simpl; repeat split; try done; try lia; auto.
Qed.

Lemma block_opening_witness :
  let s' := {| Enc.buffer := [x03; x11; x22; x55]; Enc.encode := 4;
               Enc.codep := 3; Enc.code := 1 |} in
  Enc.buffer s' !! 0%nat = Some x03 ∧
  Enc.code s' = 1 ∧
  Enc.codep s' = 3%nat ∧
  (Enc.encode s' = S (Enc.codep s') ↔ u8 x00 = 0 ∨ O ≠ O) ∧
  (Enc.encode s' = Enc.codep s' ↔ u8 x00 ≠ 0 ∧ O = O).
Proof.
  apply (block_opening x00 O
           {| Enc.buffer := [x55; x11; x22; x55]; Enc.encode := 3;
              Enc.codep := 0; Enc.code := 3 |}).
  - reflexivity.
  - left. reflexivity.
Defined.

(** ** The count of the encoder and the bound *)

(** The locals at the end of a call that returns. *)
Lemma cobsEncode_ctl (d buf : list byte) (n : nat) (out : ptr) :
  cobsEncode (Some d) (length d) (Some buf) = Some (n, out) →
  ∃ (s : Enc.state) (o : list byte),
    Enc.loop d 0 (length d) (Enc.init buf) = Some s ∧
    store (Enc.buffer s) (Enc.codep s) (to_byte (Enc.code s)) = Some o ∧
    out = Some o ∧ n = Enc.encode s ∧
    ctl d 0 s ∧ length (Enc.buffer s) = length buf.
Proof.
  intros H. apply cobsEncode_inv in H as (s & o & Hloop & Hst & -> & ->).
  exists s, o. repeat split; try done;
    by apply (Enc_loop_ctl d (length d) 0 (Enc.init buf) s eq_refl
                (ctl_init _ _)).
Qed.

(** The count is the length of the input, plus one, plus one for every
    maximal block that is followed by more input. *)
Lemma cobsEncode_count (d buf : list byte) (n : nat) (out : ptr) :
  cobsEncode (Some d) (length d) (Some buf) = Some (n, out) →
  let L := Z.of_nat (length d) in
  L + 1 <= Z.of_nat n ∧
  (Z.of_nat n = L + 1 ∨ 254 * (Z.of_nat n - L - 1) < L).
Proof.
  intros H. apply cobsEncode_ctl in H as (s & o & _ & _ & _ & -> & Hctl & _).
  destruct Hctl as [(_ & _ & _ & _ & Hlo & _ & Htight & _)
                   |[_ (_ & _ & _ & _ & Hlo & Hacc & _)]]; simpl; lia.
Qed.

Lemma trailing_run_nonzero (d : list byte) :
  Forall (λ b, u8 b ≠ 0) d → trailing_run d = length d.
Proof.
  unfold trailing_run. rewrite <- length_reverse, <- Forall_reverse.
  induction 1 as [|b l Hb _ IH]; [done|]. simpl.
  destruct (Z.eqb_spec (u8 b) 0); [done | by rewrite IH].
Qed.

(** The count for an input without zero bytes. *)
Lemma cobsEncode_count_nonzero (d buf : list byte) (n : nat) (out : ptr) :
  Forall (λ b, u8 b ≠ 0) d →
  cobsEncode (Some d) (length d) (Some buf) = Some (n, out) →
  let L := Z.of_nat (length d) in
  Z.of_nat n = if (0 <? L) && (L mod 254 =? 0) then L + L / 254
               else L + L / 254 + 1.
Proof.
  intros Hnz H.
  apply cobsEncode_ctl in H as (s & o & _ & _ & _ & -> & Hctl & _).
  pose proof (trailing_run_nonzero d Hnz) as Hrun. simpl.
  destruct Hctl as [(Hc & _ & _ & Hend & _ & _ & _ & Hexact)
                   |[_ (_ & _ & Hpos & Hmod & _ & _ & Hexact)]];
    specialize (Hexact Hnz); rewrite Hrun in *.
  - destruct (Hend eq_refl) as [Hz|Hm].
    + rewrite Hz in *. simpl in *. lia.
    + destruct (Z.eqb_spec (Z.of_nat (length d) mod 254) 0); [done|].
      rewrite andb_false_r. div_lia.
  - destruct (Z.ltb_spec 0 (Z.of_nat (length d))); [|lia].
    rewrite Hmod. simpl. div_lia.
Qed.

Lemma worst_case_Z (L : nat) :
  Z.of_nat (worst_case L) = Z.of_nat L + Z.of_nat L / 254 + 1.
Proof. unfold worst_case. div_lia. Qed.

(** [maxCobsEncodedLength] computes the worst-case size when that size is
    representable in [size_t]. *)
Lemma maxCobsEncodedLength_exact (SIZE_BITS : Z) (L : nat) :
  Z.of_nat L + Z.of_nat L / 254 + 1 < 2 ^ SIZE_BITS →
  maxCobsEncodedLength SIZE_BITS (Z.of_nat L) = Z.of_nat (worst_case L).
Proof.
  intros Hfit. unfold maxCobsEncodedLength.
  rewrite worst_case_Z. apply Z.mod_small. div_lia.
Qed.

(** C3. Bound upper bound: for every byte sequence [d] of length [L] whose
    bound [L + L / 254 + 1] is representable in [size_t] (so that
    [maxCobsEncodedLength] computes it), and every output buffer of that
    many bytes or more, the encoder returns a count that is at most
    [maxCobsEncodedLength L], and [maxCobsEncodedLength L] is
    [L + L / 254 + 1]. *)
Theorem cobsEncode_bound (SIZE_BITS : Z) (d buf : list byte) :
  let L := Z.of_nat (length d) in
  L + L / 254 + 1 < 2 ^ SIZE_BITS →
  maxCobsEncodedLength SIZE_BITS L <= Z.of_nat (length buf) →
  ∃ (n : nat) (out : list byte),
    cobsEncode (Some d) (length d) (Some buf) = Some (n, Some out) ∧
    Z.of_nat n <= maxCobsEncodedLength SIZE_BITS L ∧
    maxCobsEncodedLength SIZE_BITS L = L + L / 254 + 1.
Proof.
  intros L Hfit Hcap. subst L.
  rewrite maxCobsEncodedLength_exact in * by done.
  destruct (cobsEncode_defined d buf) as (n & out & Henc); [lia|].
  exists n, out. split; [done|].
  apply cobsEncode_count in Henc as [_ Htight].
  rewrite worst_case_Z. split; [div_lia | done].
Qed.

Lemma cobsEncode_bound_witness :
  ∃ (n : nat) (out : list byte),
    cobsEncode (Some [x11; x22; x00; x33]) 4
               (Some [x55; x55; x55; x55; x55])
      = Some (n, Some out) ∧
    Z.of_nat n <= maxCobsEncodedLength 64 4 ∧
    maxCobsEncodedLength 64 4 = 4 + 4 / 254 + 1.
Proof.
  apply (cobsEncode_bound 64 [x11; x22; x00; x33]
           [x55; x55; x55; x55; x55]); vm_compute; [reflexivity | discriminate].
Defined.

(** ** No store beyond the bound *)

(** An iteration stores at [codep] and at [encode] only. *)
Lemma Enc_body_untouched (b : byte) (rem : nat) (s s' : Enc.state) :
  (Enc.codep s < Enc.encode s)%nat →
  Enc.body b rem s = Some s' →
  ∀ i : nat, (Enc.encode s < i)%nat →
    Enc.buffer s' !! i = Enc.buffer s !! i.
Proof.
  unfold Enc.body, Enc.write_byte, Enc.restart. intros Hlt H i Hi.
  open_stores H; inversion H; subst s'; simpl in *;
    repeat match goal with
      | E : store _ _ _ = Some _ |- _ => apply store_inv in E as [_ ->]
      end;
    by rewrite ?list_lookup_insert_ne by lia.
Qed.

(** The loop leaves the bytes from [encode] on as they were. *)
Lemma Enc_loop_untouched (d : list byte) :
  ∀ (length byte : nat) (s s' : Enc.state),
    (byte + length)%nat = List.length d →
    ctl_open (take byte d) length s →
    Enc.loop d byte length s = Some s' →
    ∀ i : nat, (Enc.encode s' <= i)%nat →
      Enc.buffer s' !! i = Enc.buffer s !! i.
Proof.
  induction length as [|rem IH]; intros byte s s' Hlen Hctl Hloop i Hi;
    simpl in Hloop.
  - by inversion Hloop.
  - unfold load in Hloop.
    destruct (d !! byte) as [b|] eqn:Hb; [simpl in Hloop | done].
    destruct (Enc.body b rem s) as [s1|] eqn:Hbody; [simpl in Hloop | done].
    pose proof (ctl_body _ _ _ _ _ Hctl Hbody) as Hctl1.
    rewrite <- (take_S_r _ _ _ Hb) in Hctl1.
    pose proof (Enc_body_encode _ _ _ _ Hbody) as Hadv.
    pose proof (Enc_loop_encode _ _ _ _ _ Hloop) as Hmono.
    destruct Hctl as (Hc & He & _).
    assert (Enc.codep s < Enc.encode s)%nat as Hslot by lia.
    rewrite <- (Enc_body_untouched b rem s s1 Hslot Hbody i) by lia.
    destruct rem as [|rem]; [simpl in Hloop; by inversion Hloop|].
    destruct Hctl1 as [Hopen|[? _]]; [|done].
    by apply (IH (S byte)); [lia | | |].
Qed.

(** C9. For every input [d] of length [L] whose bound is representable in
    [size_t] and every buffer of at least [maxCobsEncodedLength L] bytes
    (exactly that many included), every index the encoder stores at is
    below the bound: the call is defined (a store outside the buffer would
    make it undefined), the index [codep] of the final code write is below
    the bound, and the bytes of a larger buffer from the bound on are left
    as they were.  The final code write is at the index equal to the
    returned count exactly when the non-zero bytes that end the input are a
    positive multiple of 254 (the final block is maximal and ends the input
    on a non-zero byte), and it then stores [0x01]. *)
Theorem cobsEncode_within_bound (SIZE_BITS : Z) (d buf : list byte) :
  let L := Z.of_nat (length d) in
  L + L / 254 + 1 < 2 ^ SIZE_BITS →
  maxCobsEncodedLength SIZE_BITS L <= Z.of_nat (length buf) →
  ∃ (s : Enc.state) (out : list byte),
    Enc.loop d 0 (length d) (Enc.init buf) = Some s ∧
    store (Enc.buffer s) (Enc.codep s) (to_byte (Enc.code s)) = Some out ∧
    cobsEncode (Some d) (length d) (Some buf)
      = Some (Enc.encode s, Some out) ∧
    Z.of_nat (Enc.codep s) < maxCobsEncodedLength SIZE_BITS L ∧
    (∀ i : nat, maxCobsEncodedLength SIZE_BITS L <= Z.of_nat i →
       out !! i = buf !! i) ∧
    (Enc.codep s <= Enc.encode s)%nat ∧
    (Enc.codep s = Enc.encode s ↔
       (0 < trailing_run d)%nat ∧ (trailing_run d mod 254 = 0)%nat) ∧
    (Enc.codep s = Enc.encode s →
       Enc.code s = 1 ∧ out !! Enc.encode s = Some x01).
Proof.
  intros L Hfit Hcap. subst L.
  rewrite maxCobsEncodedLength_exact in * by done.
  destruct (cobsEncode_defined d buf) as (n & out & Henc); [lia|].
  pose proof Henc as Hctl.
  apply cobsEncode_ctl in Hctl as (s & o & Hloop & Hst & Ho & -> & Hctl & _).
  inversion Ho; subst o; clear Ho.
  exists s, out. split; [done|]. split; [done|]. split; [done|].
  pose proof (Enc_loop_untouched d (length d) 0 (Enc.init buf) s eq_refl
                (ctl_init _ _) Hloop) as Hsame. simpl in Hsame.
  apply store_inv in Hst as [Hin ->]. rewrite worst_case_Z.
  destruct Hctl as [(Hc & He & _ & Hend & Hlo & Hacc & _)
                   |[_ (Hc & He & Hpos & Hmod & Hlo & Hacc & _)]].
  - (* the last block is open: [codep] is below [encode] *)
    split; [div_lia|].
    split.
    { intros i Hi. rewrite list_lookup_insert_ne by div_lia.
      apply Hsame. div_lia. }
    split; [lia|]. split; [|lia].
    split; [lia|]. intros [Hpos Hmod].
    destruct (Hend eq_refl); [lia | div_lia].
  - (* the last block is maximal and closed: [codep] is [encode] *)
    split; [div_lia|].
    split.
    { intros i Hi. rewrite list_lookup_insert_ne by div_lia.
      apply Hsame. div_lia. }
    split; [lia|]. split; [split; [intros _; split; [done | div_lia] | done]|].
    intros _. split; [done|].
    rewrite Hc, <- He. by apply list_lookup_insert_eq.
Qed.

Lemma cobsEncode_within_bound_witness :
  ∃ (s : Enc.state) (out : list byte),
    Enc.loop (replicate 254 x07) 0 254 (Enc.init (replicate 256 x55))
      = Some s ∧
    store (Enc.buffer s) (Enc.codep s) (to_byte (Enc.code s)) = Some out ∧
    cobsEncode (Some (replicate 254 x07)) 254 (Some (replicate 256 x55))
      = Some (Enc.encode s, Some out) ∧
    Z.of_nat (Enc.codep s) < maxCobsEncodedLength 64 254 ∧
    (∀ i : nat, maxCobsEncodedLength 64 254 <= Z.of_nat i →
       out !! i = replicate 256 x55 !! i) ∧
    (Enc.codep s <= Enc.encode s)%nat ∧
    (Enc.codep s = Enc.encode s ↔
       (0 < trailing_run (replicate 254 x07))%nat ∧
       (trailing_run (replicate 254 x07) mod 254 = 0)%nat) ∧
    (Enc.codep s = Enc.encode s →
       Enc.code s = 1 ∧ out !! Enc.encode s = Some x01).
Proof.
  apply (cobsEncode_within_bound 64 (replicate 254 x07) (replicate 256 x55));
    vm_compute; [reflexivity | discriminate].
Defined.

(** ** Where the bound is attained *)

(** C6, as stated, fails: no input of length 254 is encoded to
    [maxCobsEncodedLength 254 = 256] bytes (with a 64-bit [size_t]). *)
Lemma bound_tightness_counterexample :
  ¬ (∀ L : nat,
       ∃ (d buf : list byte) (n : nat) (out : ptr),
         length d = L ∧
         cobsEncode (Some d) L (Some buf) = Some (n, out) ∧
         Z.of_nat n = maxCobsEncodedLength 64 (Z.of_nat L)).
Proof.
  intros H. destruct (H 254%nat) as (d & buf & n & out & Hlen & Henc & Hn).
  rewrite <- Hlen in Henc. apply cobsEncode_count in Henc as [_ Htight].
  rewrite Hlen in Htight.
  change (maxCobsEncodedLength 64 (Z.of_nat 254)) with 256 in Hn. lia.
Qed.

(** C6, amended. Bound tightness: for every input length [L] that is 0 or
    not a multiple of 254 (and whose bound is representable in [size_t])
    there is a byte sequence of length [L], without zero bytes, whose
    encoded length is [maxCobsEncodedLength L] exactly; for [L] a positive
    multiple of 254 every input of length [L] is encoded to at most
    [maxCobsEncodedLength L - 1] bytes, and an input without zero bytes to
    exactly that many. *)
Theorem bound_tightness (SIZE_BITS : Z) (L : nat) :
  let bound := maxCobsEncodedLength SIZE_BITS (Z.of_nat L) in
  Z.of_nat L + Z.of_nat L / 254 + 1 < 2 ^ SIZE_BITS →
  ∃ d : list byte,
    length d = L ∧ Forall (λ b, u8 b ≠ 0) d ∧
    ∀ buf : list byte,
      bound <= Z.of_nat (length buf) →
      ∃ (n : nat) (out : list byte),
        cobsEncode (Some d) L (Some buf) = Some (n, Some out) ∧
        (L = O ∨ (L mod 254 ≠ 0)%nat → Z.of_nat n = bound) ∧
        ((0 < L)%nat ∧ (L mod 254 = 0)%nat →
           Z.of_nat n = bound - 1 ∧
           ∀ (d' buf' : list byte) (n' : nat) (out' : ptr),
             length d' = L →
             cobsEncode (Some d') L (Some buf') = Some (n', out') →
             Z.of_nat n' <= bound - 1).
Proof.
  intros bound Hfit. subst bound.
  rewrite maxCobsEncodedLength_exact by done.
  exists (replicate L x01).
  assert (Forall (λ b, u8 b ≠ 0) (replicate L x01)) as Hnz
    by by apply Forall_replicate.
  rewrite length_replicate. repeat split; [done|].
  intros buf Hcap.
  destruct (cobsEncode_defined (replicate L x01) buf) as (n & out & Henc);
    [rewrite length_replicate; lia|].
  rewrite length_replicate in Henc.
  exists n, out. split; [done|].
  pose proof Henc as Hn. rewrite <- (length_replicate L x01) in Hn at 2.
  apply cobsEncode_count_nonzero in Hn; [|done].
  rewrite length_replicate in Hn. rewrite worst_case_Z.
  split.
  - intros Hcase. rewrite Hn.
    destruct (Z.ltb_spec 0 (Z.of_nat L)); simpl; [|done].
    destruct (Z.eqb_spec (Z.of_nat L mod 254) 0); [div_lia | done].
  - intros [Hpos Hmod]. split.
    + rewrite Hn.
      destruct (Z.ltb_spec 0 (Z.of_nat L)); simpl; [|lia].
      destruct (Z.eqb_spec (Z.of_nat L mod 254) 0); [lia | div_lia].
    + intros d' buf' n' out' Hlen Henc'.
      rewrite <- Hlen in Henc'. apply cobsEncode_count in Henc' as [_ Ht].
      rewrite Hlen in Ht. div_lia.
Qed.

Lemma bound_tightness_witness :
  ∃ d : list byte,
    length d = 3%nat ∧ Forall (λ b, u8 b ≠ 0) d ∧
    ∀ buf : list byte,
      maxCobsEncodedLength 64 3 <= Z.of_nat (length buf) →
      ∃ (n : nat) (out : list byte),
        cobsEncode (Some d) 3 (Some buf) = Some (n, Some out) ∧
        (3%nat = O ∨ (3 mod 254 ≠ 0)%nat →
           Z.of_nat n = maxCobsEncodedLength 64 3) ∧
        ((0 < 3)%nat ∧ (3 mod 254 = 0)%nat →
           Z.of_nat n = maxCobsEncodedLength 64 3 - 1 ∧
           ∀ (d' buf' : list byte) (n' : nat) (out' : ptr),
             length d' = 3%nat →
             cobsEncode (Some d') 3 (Some buf') = Some (n', out') →
             Z.of_nat n' <= maxCobsEncodedLength 64 3 - 1).
Proof.
  apply (bound_tightness 64 3). vm_compute. reflexivity.
Defined.

(** * Further properties of the codec *)

(** ** The size of the encoded frame *)

(** X1. The encoder adds at least one byte, and at most one byte for every
    254 input bytes started: for an input of [L] bytes the count [n] is
    between [L + 1] and [L + 1 + (L - 1) / 254]. *)
Theorem cobsEncode_count_range (d buf : list byte) :
  (worst_case (length d) <= length buf)%nat →
  ∃ (n : nat) (out : list byte),
    cobsEncode (Some d) (length d) (Some buf) = Some (n, Some out) ∧
    (length d + 1 <= n <= length d + 1 + (length d - 1) / 254)%nat.
Proof.
  intros Hcap.
  destruct (cobsEncode_defined d buf Hcap) as (n & out & Henc).
  exists n, out. split; [done|].
  apply cobsEncode_count in Henc as [Hlo Htight]. div_lia.
Qed.

Lemma cobsEncode_count_range_witness :
  ∃ (n : nat) (out : list byte),
    cobsEncode (Some [x00; x07; x00]) 3 (Some [x55; x55; x55; x55])
      = Some (n, Some out) ∧
    (3 + 1 <= n <= 3 + 1 + (3 - 1) / 254)%nat.
Proof.
  apply (cobsEncode_count_range [x00; x07; x00] [x55; x55; x55; x55]).
  vm_compute. lia.
Defined.

(** A call that returns has stored [length d + 1] bytes or more, all in
    the buffer. *)
Lemma cobsEncode_fits (d buf : list byte) (n : nat) (out : ptr) :
  cobsEncode (Some d) (length d) (Some buf) = Some (n, out) →
  (length d + 1 <= n <= length buf)%nat.
Proof.
  intros Henc.
  pose proof (cobsEncode_count _ _ _ _ Henc) as [Hlo _]. simpl in Hlo.
  pose proof Henc as Hinv.
  apply cobsEncode_inv in Hinv as (s & o & _ & _ & -> & _).
  apply cobsEncode_frame in Henc as (bs & cur & tail & -> & -> & _ & _ & Hlen).
  rewrite length_app in Hlen. lia.
Qed.

(** X2. The encoder does not check the capacity of [buffer]: when the
    buffer is not longer than the input, the encoder stores outside it (the
    call is undefined). *)
Theorem cobsEncode_overrun (d buf : list byte) :
  (length buf <= length d)%nat →
  cobsEncode (Some d) (length d) (Some buf) = None.
Proof.
  intros Hshort.
  destruct (cobsEncode (Some d) (length d) (Some buf)) as [[n out]|] eqn:Henc;
    [|done].
  apply cobsEncode_fits in Henc. lia.
Qed.

Lemma cobsEncode_overrun_witness :
  cobsEncode (Some [x11; x22]) 2 (Some [x55; x55]) = None.
Proof.
  apply (cobsEncode_overrun [x11; x22] [x55; x55]). simpl. lia.
Defined.

(** X3. The encoder keeps the size of the buffer object, returns a count
    within it, and leaves every byte after offset [n] (the count) as it
    was. *)
Theorem cobsEncode_frame_rule (d buf : list byte) :
  (worst_case (length d) <= length buf)%nat →
  ∃ (n : nat) (out : list byte),
    cobsEncode (Some d) (length d) (Some buf) = Some (n, Some out) ∧
    length out = length buf ∧
    (n <= length buf)%nat ∧
    ∀ i : nat, (n < i)%nat → out !! i = buf !! i.
Proof.
  intros Hcap.
  destruct (cobsEncode_defined d buf Hcap) as (n & out & Henc).
  exists n, out. split; [done|].
  pose proof Henc as Hfr.
  apply cobsEncode_frame in Hfr as (bs & cur & tail & Hout & Hn & _ & _ & Hlen).
  split; [done|]. split.
  { rewrite <- Hlen, Hout, length_app. lia. }
  apply cobsEncode_ctl in Henc as (s & o & Hloop & Hst & Ho & -> & Hctl & _).
  inversion Ho; subst o; clear Ho.
  pose proof (Enc_loop_untouched d (length d) 0 (Enc.init buf) s eq_refl
                (ctl_init _ _) Hloop) as Hsame. simpl in Hsame.
  apply store_inv in Hst as [_ Hst]. intros i Hi.
  assert (Enc.codep s <= Enc.encode s)%nat
    by (destruct Hctl as [(? & ? & _)|[_ (_ & ? & _)]]; lia).
  rewrite Hst, list_lookup_insert_ne by lia. apply Hsame. lia.
Qed.

Lemma cobsEncode_frame_rule_witness :
  ∃ (n : nat) (out : list byte),
    cobsEncode (Some [x11]) 1 (Some [x55; x55; x55; x55])
      = Some (n, Some out) ∧
    length out = 4%nat ∧
    (n <= 4)%nat ∧
    ∀ i : nat, (n < i)%nat → out !! i = [x55; x55; x55; x55] !! i.
Proof.
  apply (cobsEncode_frame_rule [x11] [x55; x55; x55; x55]).
  vm_compute. lia.
Defined.

(** ** Only the first [length] bytes of [data] are read *)

Lemma Enc_loop_take (d : list byte) :
  ∀ (length byte : nat) (s : Enc.state),
    Enc.loop d byte length s = Enc.loop (take (byte + length) d) byte length s.
Proof.
  induction length as [|rem IH]; intros byte s; simpl; [done|].
  unfold load. rewrite lookup_take_lt by lia.
  destruct (d !! byte) as [b|]; [simpl | done].
  destruct (Enc.body b rem s) as [s1|]; [simpl | done].
  rewrite IH. by replace (S byte + rem)%nat with (byte + S rem)%nat by lia.
Qed.

(** X4. The encoder reads the first [length] bytes of [data] and nothing
    after them: a call on [data] is the call on those bytes alone. *)
Theorem cobsEncode_reads_length (data : list byte) (length : nat) (buffer : ptr) :
  cobsEncode (Some data) length buffer
    = cobsEncode (Some (take length data)) length buffer.
Proof.
  destruct buffer as [buf|]; [simpl | done].
  by rewrite (Enc_loop_take data length 0).
Qed.

Lemma Dec_body_take (data : list byte) (length : nat) (s : Dec.state) :
  (Dec.byte s < length)%nat →
  Dec.body (take length data) s = Dec.body data s.
Proof.
  intros Hlt. unfold Dec.body, load.
  rewrite lookup_take_lt by done.
  destruct (negb (Dec.block s =? 0)); [done|].
  destruct (negb (Dec.code s =? 255)); simpl.
  - destruct (store _ _ _); simpl; [|done]. by rewrite lookup_take_lt.
  - by rewrite lookup_take_lt.
Qed.

Lemma Dec_loop_take (data : list byte) (length : nat) :
  ∀ (k : nat) (s : Dec.state),
    (length - Dec.byte s)%nat = k →
    Dec.loop (take length data) length s = Dec.loop data length s.
Proof.
  induction k as [|k IH]; intros s Hk;
    rewrite (Dec_loop_unfold data), (Dec_loop_unfold (take length data)).
  - destruct (Nat.ltb_spec (Dec.byte s) length); [lia | done].
  - destruct (Nat.ltb_spec (Dec.byte s) length); [|lia].
    rewrite Dec_body_take by done.
    destruct (Dec.body data s) as [e|] eqn:Hbody; [|done].
    apply Dec_body_inv in Hbody as (Hb & _ & _).
    destruct e as [s1|s1]; simpl in *; [|done].
    apply IH. simpl. lia.
Qed.

(** X5. The decoder reads the first [length] bytes of [data] and nothing
    after them: a call on [data] is the call on those bytes alone. *)
Theorem cobsDecode_reads_length (data : list byte) (length : nat) (buffer : ptr) :
  cobsDecode (Some data) length buffer
    = cobsDecode (Some (take length data)) length buffer.
Proof.
  destruct buffer as [buf|]; [simpl | done].
  by rewrite (Dec_loop_take data length length (Dec.init buf))
    by (simpl; lia).
Qed.

(** ** Sizing the buffer with [maxCobsEncodedLength] *)

(** X6. A buffer sized by [maxCobsEncodedLength] for the longest message
    serves every shorter one: if the bound for [max_length] is representable
    in [size_t] and [buffer] has that many bytes, the encoder is defined on
    every input of at most [max_length] bytes and its count is at most the
    bound for [max_length]. *)
Theorem maxCobsEncodedLength_covers
    (SIZE_BITS : Z) (max_length : nat) (d buf : list byte) :
  let M := Z.of_nat max_length in
  (length d <= max_length)%nat →
  M + M / 254 + 1 < 2 ^ SIZE_BITS →
  maxCobsEncodedLength SIZE_BITS M <= Z.of_nat (length buf) →
  ∃ (n : nat) (out : list byte),
    cobsEncode (Some d) (length d) (Some buf) = Some (n, Some out) ∧
    Z.of_nat n <= maxCobsEncodedLength SIZE_BITS M.
Proof.
  intros M Hle Hfit Hcap. subst M.
  rewrite maxCobsEncodedLength_exact in * by done.
  destruct (cobsEncode_defined d buf) as (n & out & Henc);
    [unfold worst_case in *; div_lia|].
  exists n, out. split; [done|].
  apply cobsEncode_count in Henc as [_ Htight].
  unfold worst_case. div_lia.
Qed.

Lemma maxCobsEncodedLength_covers_witness :
  ∃ (n : nat) (out : list byte),
    cobsEncode (Some [x11; x00]) 2 (Some (replicate 302 x55))
      = Some (n, Some out) ∧
    Z.of_nat n <= maxCobsEncodedLength 32 300.
Proof.
  apply (maxCobsEncodedLength_covers 32 300 [x11; x00] (replicate 302 x55));
    vm_compute; [lia | reflexivity | discriminate].
Defined.

(** X7. [maxCobsEncodedLength] does not guard against overflow: when
    [data_length + data_length / 254 + 1] is not representable in [size_t],
    the value returned is that sum less [2 ^ SIZE_BITS], which is not more
    than [data_length / 254]; the encoder overruns a buffer of that many
    bytes on every input of [data_length] bytes. *)
Theorem maxCobsEncodedLength_overflow (SIZE_BITS : Z) (d buf : list byte) :
  let L := Z.of_nat (length d) in
  L < 2 ^ SIZE_BITS →
  2 ^ SIZE_BITS <= L + L / 254 + 1 →
  Z.of_nat (length buf) = maxCobsEncodedLength SIZE_BITS L →
  maxCobsEncodedLength SIZE_BITS L = L + L / 254 + 1 - 2 ^ SIZE_BITS ∧
  maxCobsEncodedLength SIZE_BITS L <= L / 254 ∧
  cobsEncode (Some d) (length d) (Some buf) = None.
Proof.
  intros L Hin Hover Hbuf. subst L.
  assert (maxCobsEncodedLength SIZE_BITS (Z.of_nat (length d))
          = Z.of_nat (length d) + Z.of_nat (length d) / 254 + 1
            - 2 ^ SIZE_BITS) as Hval.
  { unfold maxCobsEncodedLength.
    symmetry. apply (Z.mod_unique _ _ 1); div_lia. }
  split; [done|]. split; [lia|].
  destruct (cobsEncode (Some d) (length d) (Some buf)) as [[n out]|] eqn:Henc;
    [|done].
  apply cobsEncode_fits in Henc. div_lia.
Qed.

Lemma maxCobsEncodedLength_overflow_witness :
  maxCobsEncodedLength 8 254 = 254 + 254 / 254 + 1 - 2 ^ 8 ∧
  maxCobsEncodedLength 8 254 <= 254 / 254 ∧
  cobsEncode (Some (replicate 254 x07)) 254 (Some []) = None.
Proof.
  apply (maxCobsEncodedLength_overflow 8 (replicate 254 x07) []);
    vm_compute; (reflexivity || discriminate).
Defined.

(** ** What the decoder writes *)

(** Once the first code byte is read, fewer bytes are written than read. *)
Lemma Dec_loop_shrinks (data : list byte) (length : nat) :
  ∀ (k : nat) (s s' : Dec.state),
    (length - Dec.byte s)%nat = k →
    (Dec.decode s < Dec.byte s <= length)%nat →
    Dec.loop data length s = Some s' →
    (Dec.decode s' < Dec.byte s' <= length)%nat.
Proof.
  induction k as [|k IH]; intros s s' Hk Hlt Hloop;
    rewrite Dec_loop_unfold in Hloop.
  - destruct (Nat.ltb_spec (Dec.byte s) length); [lia|].
    by inversion Hloop; subst s'.
  - destruct (Nat.ltb_spec (Dec.byte s) length); [|lia].
    destruct (Dec.body data s) as [e|] eqn:Hbody; [|done].
    apply Dec_body_inv in Hbody as (Hb & Hd & _).
    destruct e as [s1|s1]; simpl in *.
    + apply (IH (Dec.step s1)); [simpl; lia | simpl; lia | done].
    + inversion Hloop; subst s'. lia.
Qed.

Lemma Dec_loop_defined_tight (data : list byte) (length : nat) :
  (length <= List.length data)%nat →
  ∀ (k : nat) (s : Dec.state),
    (length - Dec.byte s)%nat = k →
    (Dec.decode s < Dec.byte s)%nat →
    (length - 1 <= List.length (Dec.buffer s))%nat →
    is_Some (Dec.loop data length s).
Proof.
  intros Hdata.
  induction k as [|k IH]; intros s Hk Hlt Hcap; rewrite Dec_loop_unfold.
  - destruct (Nat.ltb_spec (Dec.byte s) length); [lia | by eexists].
  - destruct (Nat.ltb_spec (Dec.byte s) length); [|lia].
    destruct (Dec_body_defined data s) as [e Hbody]; [lia | lia |].
    rewrite Hbody.
    apply Dec_body_inv in Hbody as (Hb & Hd & Hl).
    destruct e as [s1|s1]; simpl in *; [|by eexists].
    apply (IH (Dec.step s1)); simpl; lia.
Qed.

(** X8. The decoder returns fewer bytes than it is given: for a non-empty
    input of [n] bytes, well-formed or not, an output buffer of [n - 1] bytes
    is enough, and the count is at most [n - 1]. *)
Theorem cobsDecode_shrinks (data buf : list byte) (n : nat) :
  (1 <= n <= length data)%nat →
  (n - 1 <= length buf)%nat →
  ∃ (count : nat) (out : list byte),
    cobsDecode (Some data) n (Some buf) = Some (count, Some out) ∧
    (count < n)%nat.
Proof.
  intros [Hpos Hdata] Hcap. unfold cobsDecode.
  destruct (lookup_lt_is_Some_2 data 0) as [b Hb]; [lia|].
  rewrite Dec_loop_unfold. simpl.
  destruct (Nat.ltb_spec 0 n); [|lia].
  unfold Dec.body, load. simpl. rewrite Hb. simpl.
  destruct (u8 b =? 0).
  - simpl. exists 0%nat, buf. split; [done | lia].
  - set (s1 := Dec.step _).
    destruct (Dec_loop_defined_tight data n Hdata (n - 1) s1) as [s' Hloop];
      [done | simpl; lia | done |].
    rewrite Hloop. simpl. exists (Dec.decode s'), (Dec.buffer s').
    split; [done|].
    apply (Dec_loop_shrinks data n (n - 1) s1) in Hloop; [lia | done |].
    simpl. lia.
Qed.

Lemma cobsDecode_shrinks_witness :
  ∃ (count : nat) (out : list byte),
    cobsDecode (Some [x03; x11; x22; x01]) 4 (Some [x55; x55; x55])
      = Some (count, Some out) ∧
    (count < 4)%nat.
Proof.
  apply (cobsDecode_shrinks [x03; x11; x22; x01] [x55; x55; x55] 4);
    simpl; lia.
Defined.

(** An iteration stores at [decode] only, and then advances it. *)
Lemma Dec_body_untouched (data : list byte) (s : Dec.state) (e : Dec.exit) :
  Dec.body data s = Some e →
  (Dec.decode s <= Dec.decode (Dec_exit_state e))%nat ∧
  ∀ i : nat, (Dec.decode (Dec_exit_state e) <= i)%nat →
    Dec.buffer (Dec_exit_state e) !! i = Dec.buffer s !! i.
Proof.
  unfold Dec.body. intros H.
  destruct (negb (Dec.block s =? 0)).
  - destruct (load data (Dec.byte s)); [simpl in H | done].
    destruct (store _ _ _) eqn:Hst; [simpl in H | done].
    apply store_inv in Hst as [_ ->].
    inversion H; subst e; simpl. split; [lia|].
    intros i Hi. by rewrite list_lookup_insert_ne by lia.
  - destruct (negb (Dec.code s =? 255)).
    + destruct (store _ _ _) eqn:Hst; [simpl in H | done].
      apply store_inv in Hst as [_ ->].
      destruct (load data (Dec.byte s)); [simpl in H | done].
      destruct (u8 _ =? 0); inversion H; subst e; simpl;
        (split; [lia|]); intros i Hi;
        by rewrite list_lookup_insert_ne by lia.
    + simpl in H.
      destruct (load data (Dec.byte s)); [simpl in H | done].
      destruct (u8 _ =? 0); inversion H; subst e; simpl; (split; [lia | done]).
Qed.

Lemma Dec_loop_untouched (data : list byte) (length : nat) :
  ∀ (k : nat) (s s' : Dec.state),
    (length - Dec.byte s)%nat = k →
    Dec.loop data length s = Some s' →
    (Dec.decode s <= Dec.decode s')%nat ∧
    ∀ i : nat, (Dec.decode s' <= i)%nat →
      Dec.buffer s' !! i = Dec.buffer s !! i.
Proof.
  induction k as [|k IH]; intros s s' Hk Hloop;
    rewrite Dec_loop_unfold in Hloop.
  - destruct (Nat.ltb_spec (Dec.byte s) length); [lia|].
    by inversion Hloop; subst s'.
  - destruct (Nat.ltb_spec (Dec.byte s) length); [|lia].
    destruct (Dec.body data s) as [e|] eqn:Hbody; [|done].
    pose proof (Dec_body_inv _ _ _ Hbody) as (Hb & _ & _).
    apply Dec_body_untouched in Hbody as [Hmono Hsame].
    destruct e as [s1|s1]; simpl in *.
    + apply (IH (Dec.step s1)) in Hloop as [Hmono' Hsame']; [|simpl; lia].
      simpl in *. split; [lia|].
      intros i Hi. rewrite Hsame' by done. apply Hsame. lia.
    + by inversion Hloop; subst s'.
Qed.

(** X9. The decoder keeps the size of the buffer object and leaves every
    byte from offset [count] (the count it returns) on as it was. *)
Theorem cobsDecode_frame_rule (data buf : list byte) (n : nat) :
  (n <= length data)%nat →
  (n <= length buf)%nat →
  ∃ (count : nat) (out : list byte),
    cobsDecode (Some data) n (Some buf) = Some (count, Some out) ∧
    length out = length buf ∧
    ∀ i : nat, (count <= i)%nat → out !! i = buf !! i.
Proof.
  intros Hdata Hcap. unfold cobsDecode.
  destruct (Dec_loop_defined data n Hdata n (Dec.init buf)) as [s Hs];
    [simpl; lia | simpl; lia | done |].
  rewrite Hs. simpl. exists (Dec.decode s), (Dec.buffer s).
  split; [done|].
  pose proof (Dec_loop_inv data n n (Dec.init buf) s) as [_ Hlen];
    [simpl; lia | simpl; lia | done |].
  split; [done|].
  by apply (Dec_loop_untouched data n n (Dec.init buf) s) in Hs as [_ Hsame];
    [| simpl; lia].
Qed.

Lemma cobsDecode_frame_rule_witness :
  ∃ (count : nat) (out : list byte),
    cobsDecode (Some [x02; x11; x01]) 3 (Some [x55; x55; x55; x55])
      = Some (count, Some out) ∧
    length out = 4%nat ∧
    ∀ i : nat, (count <= i)%nat → out !! i = [x55; x55; x55; x55] !! i.
Proof.
  apply (cobsDecode_frame_rule [x02; x11; x01] [x55; x55; x55; x55] 3);
    simpl; lia.
Defined.

(** ** The frame is a function of the input, and an injective one *)

Lemma insert_agree (l1 l2 : list byte) (j i : nat) (v : byte) :
  (j < length l1)%nat → (j < length l2)%nat →
  (i ≠ j → l1 !! i = l2 !! i) →
  <[j:=v]> l1 !! i = <[j:=v]> l2 !! i.
Proof.
  intros H1 H2 Hne. destruct (decide (i = j)) as [->|Hij].
  - by rewrite !list_lookup_insert_eq.
  - rewrite !list_lookup_insert_ne by done. by apply Hne.
Qed.

(** Two runs of an iteration from states with the same locals, and the same
    bytes below [encode] except in the reserved slot, end in such states. *)
Lemma Enc_body_agree (b : byte) (rem : nat) (s1 s2 s1' s2' : Enc.state) :
  1 <= Enc.code s1 <= 254 →
  (Enc.codep s1 < Enc.encode s1)%nat →
  Enc.encode s1 = Enc.encode s2 →
  Enc.codep s1 = Enc.codep s2 →
  Enc.code s1 = Enc.code s2 →
  (∀ i : nat, (i < Enc.encode s1)%nat → i ≠ Enc.codep s1 →
     Enc.buffer s1 !! i = Enc.buffer s2 !! i) →
  Enc.body b rem s1 = Some s1' →
  Enc.body b rem s2 = Some s2' →
  Enc.encode s1' = Enc.encode s2' ∧
  Enc.codep s1' = Enc.codep s2' ∧
  Enc.code s1' = Enc.code s2' ∧
  (∀ i : nat, (i < Enc.encode s1')%nat → i ≠ Enc.codep s1' →
     Enc.buffer s1' !! i = Enc.buffer s2' !! i).
Proof.
  intros Hc Hslot He Hcp Hcode Hsame H1 H2.
  destruct (Z.eq_dec (u8 b) 0) as [Hz|Hz].
  - rewrite Enc_body_zero in H1, H2 by done.
    destruct (store (Enc.buffer s1) _ _) eqn:Hst1; [simpl in H1 | done].
    destruct (store (Enc.buffer s2) _ _) eqn:Hst2; [simpl in H2 | done].
    apply store_inv in Hst1 as [Hin1 ->]. apply store_inv in Hst2 as [Hin2 ->].
    inversion H1; subst s1'. inversion H2; subst s2'. simpl.
    repeat split; try done; try lia.
    intros i Hi Hne. rewrite <- Hcp, <- Hcode.
    apply insert_agree; [rewrite ?length_insert; lia | rewrite ?length_insert; lia |]. intros ?. apply Hsame; lia.
  - destruct (Z.eq_dec (Enc.code s1) 254) as [Hfull|Hfull].
    + rewrite Enc_body_full in H1, H2 by (done || lia).
      destruct (store (Enc.buffer s1) _ _) as [b1|] eqn:Hst1;
        [simpl in H1 | done].
      destruct (store b1 _ _) eqn:Hst1'; [simpl in H1 | done].
      destruct (store (Enc.buffer s2) _ _) as [b2|] eqn:Hst2;
        [simpl in H2 | done].
      destruct (store b2 _ _) eqn:Hst2'; [simpl in H2 | done].
      apply store_inv in Hst1 as [Hin1 ->]. apply store_inv in Hst2 as [Hin2 ->].
      apply store_inv in Hst1' as [Hin1' ->].
      apply store_inv in Hst2' as [Hin2' ->].
      rewrite length_insert in Hin1', Hin2'.
      inversion H1; subst s1'. inversion H2; subst s2'. simpl.
      rewrite <- He.
      repeat split; try done.
      intros i Hi Hne. rewrite <- Hcp.
      apply insert_agree; [rewrite ?length_insert; lia | rewrite ?length_insert; lia |]. intros ?.
      apply insert_agree; [rewrite ?length_insert; lia | rewrite ?length_insert; lia |]. intros ?.
      apply Hsame; [destruct rem; simpl in Hi; lia | done].
    + rewrite Enc_body_literal in H1, H2 by (done || lia).
      destruct (store (Enc.buffer s1) _ _) eqn:Hst1; [simpl in H1 | done].
      destruct (store (Enc.buffer s2) _ _) eqn:Hst2; [simpl in H2 | done].
      apply store_inv in Hst1 as [Hin1 ->]. apply store_inv in Hst2 as [Hin2 ->].
      inversion H1; subst s1'. inversion H2; subst s2'. simpl.
      repeat split; try done; try lia.
      intros i Hi Hne. rewrite <- He.
      apply insert_agree; [rewrite ?length_insert; lia | rewrite ?length_insert; lia |]. intros ?. apply Hsame; [lia | done].
Qed.

Lemma Enc_loop_agree (d : list byte) :
  ∀ (length byte : nat) (s1 s2 s1' s2' : Enc.state),
    (byte + length)%nat = List.length d →
    ctl_open (take byte d) length s1 →
    Enc.encode s1 = Enc.encode s2 →
    Enc.codep s1 = Enc.codep s2 →
    Enc.code s1 = Enc.code s2 →
    (∀ i : nat, (i < Enc.encode s1)%nat → i ≠ Enc.codep s1 →
       Enc.buffer s1 !! i = Enc.buffer s2 !! i) →
    Enc.loop d byte length s1 = Some s1' →
    Enc.loop d byte length s2 = Some s2' →
    Enc.encode s1' = Enc.encode s2' ∧
    Enc.codep s1' = Enc.codep s2' ∧
    Enc.code s1' = Enc.code s2' ∧
    (∀ i : nat, (i < Enc.encode s1')%nat → i ≠ Enc.codep s1' →
       Enc.buffer s1' !! i = Enc.buffer s2' !! i).
Proof.
  induction length as [|rem IH];
    intros byte s1 s2 s1' s2' Hlen Hctl He Hcp Hcode Hsame H1 H2;
    simpl in H1, H2.
  - by inversion H1; inversion H2; subst.
  - unfold load in H1, H2.
    destruct (d !! byte) as [b|] eqn:Hb; [simpl in H1, H2 | done].
    destruct (Enc.body b rem s1) as [t1|] eqn:Hbody1; [simpl in H1 | done].
    destruct (Enc.body b rem s2) as [t2|] eqn:Hbody2; [simpl in H2 | done].
    pose proof (ctl_body _ _ _ _ _ Hctl Hbody1) as Hctl1.
    rewrite <- (take_S_r _ _ _ Hb) in Hctl1.
    destruct Hctl as (Hc & Hslot & _).
    assert (Enc.codep s1 < Enc.encode s1)%nat as Hlt by lia.
    pose proof (Enc_body_agree b rem s1 s2 t1 t2 Hc Hlt He Hcp Hcode Hsame
                  Hbody1 Hbody2) as (He' & Hcp' & Hcode' & Hsame').
    destruct rem as [|rem].
    + simpl in H1, H2. by inversion H1; inversion H2; subst.
    + destruct Hctl1 as [Hopen|[? _]]; [|done].
      by apply (IH (S byte) t1 t2); [lia | | | | | | |].
Qed.

(** X10. The bytes of the frame do not depend on what the buffer held
    before the call: on two buffers of the worst-case size the encoder
    returns the same count [n] and leaves the same first [n] bytes. *)
Theorem cobsEncode_same_frame (d buf1 buf2 : list byte) :
  (worst_case (length d) <= length buf1)%nat →
  (worst_case (length d) <= length buf2)%nat →
  ∃ (n : nat) (out1 out2 : list byte),
    cobsEncode (Some d) (length d) (Some buf1) = Some (n, Some out1) ∧
    cobsEncode (Some d) (length d) (Some buf2) = Some (n, Some out2) ∧
    take n out1 = take n out2.
Proof.
  intros Hcap1 Hcap2.
  destruct (cobsEncode_defined d buf1 Hcap1) as (n1 & out1 & Henc1).
  destruct (cobsEncode_defined d buf2 Hcap2) as (n2 & out2 & Henc2).
  pose proof Henc1 as H1. pose proof Henc2 as H2.
  apply cobsEncode_inv in H1 as (s1 & o1 & Hloop1 & Hst1 & Ho1 & Hn1).
  apply cobsEncode_inv in H2 as (s2 & o2 & Hloop2 & Hst2 & Ho2 & Hn2).
  inversion Ho1; subst o1; clear Ho1. inversion Ho2; subst o2; clear Ho2.
  destruct (Enc_loop_agree d (length d) 0 (Enc.init buf1) (Enc.init buf2)
              s1 s2 eq_refl (ctl_init _ _) eq_refl eq_refl eq_refl)
    as (He & Hcp & Hcode & Hsame); [|done|done|].
  { intros i Hi Hne. simpl in *. lia. }
  assert (n1 = n2) as <- by congruence.
  exists n1, out1, out2. repeat split; try done.
  apply store_inv in Hst1 as [Hin1 ->]. apply store_inv in Hst2 as [Hin2 ->].
  apply list_eq. intros i.
  destruct (decide (i < n1)%nat) as [Hi|Hi].
  - rewrite !lookup_take_lt by done. rewrite <- Hcp, <- Hcode.
    apply insert_agree; [lia | lia |]. intros ?. apply Hsame; [lia | done].
  - by rewrite !lookup_take_ge by lia.
Qed.

Lemma cobsEncode_same_frame_witness :
  ∃ (n : nat) (out1 out2 : list byte),
    cobsEncode (Some [x00; x09]) 2 (Some [x00; x00; x00; x00])
      = Some (n, Some out1) ∧
    cobsEncode (Some [x00; x09]) 2 (Some [xff; xff; xff; xff; xff])
      = Some (n, Some out2) ∧
    take n out1 = take n out2.
Proof.
  apply (cobsEncode_same_frame [x00; x09] [x00; x00; x00; x00]
           [xff; xff; xff; xff; xff]); vm_compute; lia.
Defined.

(** The decoder gives the input back from any object that starts with the
    bytes of the frame. *)
Lemma cobsDecode_encoded (d buf data' buf' : list byte) (n : nat) (out : list byte) :
  cobsEncode (Some d) (length d) (Some buf) = Some (n, Some out) →
  take n data' = take n out →
  (length d <= length buf')%nat →
  cobsDecode (Some data') n (Some buf')
    = Some (length d, Some (d ++ drop (length d) buf')).
Proof.
  intros Henc Hdata Hcap.
  apply cobsEncode_frame in Henc as (bs & cur & tail & -> & -> & Hbs & -> & _).
  rewrite take_app_length in Hdata.
  unfold cobsDecode.
  destruct (Dec_blocks data' (length (frame (bs ++ [cur]))) (bs ++ [cur]) []
              (drop (length (frame (bs ++ [cur]))) data') [] buf'
              (Dec.init buf'))
    as (s' & Hloop & Hbuf & Hdec); try done.
  { simpl. by rewrite <- Hdata at 1; rewrite take_drop. }
  { simpl. by rewrite decoded_snoc. }
  rewrite Hloop. simpl. rewrite Hbuf, Hdec.
  simpl. by rewrite decoded_snoc.
Qed.

(** X11. The encoding is injective: two inputs that the encoder turns into
    the same frame (the same count [n] and the same first [n] bytes) are
    equal. *)
Theorem cobsEncode_injective
    (d1 d2 buf1 buf2 : list byte) (n : nat) (out1 out2 : list byte) :
  cobsEncode (Some d1) (length d1) (Some buf1) = Some (n, Some out1) →
  cobsEncode (Some d2) (length d2) (Some buf2) = Some (n, Some out2) →
  take n out1 = take n out2 →
  d1 = d2.
Proof.
  intros Henc1 Henc2 Hsame.
  pose (buf' := replicate (length d1 + length d2) x00).
  assert (length buf' = (length d1 + length d2)%nat) as Hlen
    by apply length_replicate.
  pose proof (cobsDecode_encoded d1 buf1 out1 buf' n out1 Henc1 eq_refl) as H1.
  pose proof (cobsDecode_encoded d2 buf2 out1 buf' n out2 Henc2 Hsame) as H2.
  rewrite H1 in H2 by lia. specialize (H2 ltac:(lia)).
  inversion H2 as [[Hl Hd]]. by apply app_inj_1 in Hd as [-> _].
Qed.

Lemma cobsEncode_injective_witness :
  cobsEncode (Some [x11; x00]) 2 (Some [x55; x55; x55])
    = Some (3%nat, Some [x02; x11; x01]) ∧
  cobsEncode (Some [x11; x00]) 2 (Some [xee; xee; xee; xee])
    = Some (3%nat, Some [x02; x11; x01; xee]) ∧
  [x11; x00] = [x11; x00].
Proof.
  split; [reflexivity|]. split; [reflexivity|].
  apply (cobsEncode_injective [x11; x00] [x11; x00]
           [x55; x55; x55] [xee; xee; xee; xee] 3
           [x02; x11; x01] [x02; x11; x01; xee]); reflexivity.
Defined.

(** ** Decoding a frame with its delimiter *)

(** At a block boundary the loop emits the implied zero of the block
    before, reads the code byte of the block and copies its literals. *)
Lemma Dec_block (data : list byte) (length : nat)
    (lits pin tail pre junk : list byte) (s : Dec.state) :
  let sep := if Dec.code s =? 255 then [] else [x00] in
  data = pin ++ block_bytes lits ++ tail →
  Dec.byte s = List.length pin →
  (List.length pin + S (List.length lits) <= length)%nat →
  Dec.block s = 0 →
  literal_block lits →
  Dec.buffer s = pre ++ junk →
  Dec.decode s = List.length pre →
  (List.length sep + List.length lits <= List.length junk)%nat →
  Dec.loop data length s =
    Dec.loop data length
      {| Dec.buffer := (pre ++ sep) ++ lits
                         ++ drop (List.length lits) (drop (List.length sep) junk);
         Dec.byte := (List.length (pin ++ [to_byte (Z.of_nat (List.length lits) + 1)])
                      + List.length lits)%nat;
         Dec.decode := (List.length (pre ++ sep) + List.length lits)%nat;
         Dec.code := Z.of_nat (List.length lits) + 1;
         Dec.block := 0 |}.
Proof.
  intros sep Hdata Hbyte Hlen Hblock Hlits Hbuf Hdec Hcap.
  pose proof Hlits as [_ Hmax].
  set (c := to_byte (Z.of_nat (List.length lits) + 1)).
  assert (∃ s1 : Dec.state,
            (if negb (Dec.code s =? 255) then
               buf ← store (Dec.buffer s) (Dec.decode s) x00;
               Some {| Dec.buffer := buf; Dec.byte := Dec.byte s;
                       Dec.decode := S (Dec.decode s);
                       Dec.code := Dec.code s; Dec.block := Dec.block s |}
             else Some s) = Some s1 ∧
            Dec.buffer s1 = (pre ++ sep) ++ drop (List.length sep) junk ∧
            Dec.decode s1 = List.length (pre ++ sep) ∧
            Dec.byte s1 = Dec.byte s) as (s1 & Hs1 & Hbuf1 & Hdec1 & Hbyte1).
  { subst sep. destruct (Dec.code s =? 255); simpl.
    - exists s. by rewrite app_nil_r, drop_0, Hbuf, Hdec.
    - destruct junk as [|j junk]; [simpl in Hcap; lia|].
      rewrite Hbuf, Hdec, store_Some by (rewrite length_app; simpl; lia).
      simpl. eexists. split; [done|]. simpl.
      rewrite insert_app_r_alt, Nat.sub_diag, length_app by lia. simpl.
      rewrite <- app_assoc. repeat split; try done. lia. }
  assert (data !! Dec.byte s1 = Some c) as Hload
    by by rewrite Hbyte1, Hdata, Hbyte, lookup_app_r, Nat.sub_diag by lia.
  pose proof (u8_block_code lits Hlits) as Hc. fold c in Hc.
  rewrite Dec_loop_unfold.
  destruct (Nat.ltb_spec (Dec.byte s) length); [|lia].
  unfold Dec.body, load.
  destruct (Z.eqb_spec (Dec.block s) 0); [simpl | lia].
  rewrite Hs1. simpl. rewrite Hload. simpl.
  destruct (Z.eqb_spec (u8 c) 0); [lia|].
  rewrite (Dec_copy data length lits (pin ++ [c]) tail
             (pre ++ sep) (drop (List.length sep) junk));
    [ | rewrite Hdata; unfold block_bytes; simpl; by rewrite <- !app_assoc
      | simpl; rewrite Hbyte1, Hbyte, length_app; simpl; lia
      | rewrite length_app; simpl; lia
      | simpl; unfold wrap8; rewrite Hc, Z.mod_small; lia
      | lia
      | done
      | done
      | rewrite length_drop; lia ].
  simpl. by rewrite Hc.
Qed.

(** At a block boundary the loop decodes the blocks ahead and comes to the
    boundary after them, whatever follows. *)
Lemma Dec_blocks_run (data : list byte) (length : nat) :
  ∀ (bs : list (list byte)) (cur pin tail pre junk : list byte) (s : Dec.state),
    data = pin ++ frame (bs ++ [cur]) ++ tail →
    Dec.byte s = List.length pin →
    (List.length pin + List.length (frame (bs ++ [cur])) <= length)%nat →
    Dec.block s = 0 →
    Forall literal_block (bs ++ [cur]) →
    Dec.buffer s = pre ++ junk →
    Dec.decode s = List.length pre →
    (List.length (decoded (Dec.code s) (bs ++ [cur])) <= List.length junk)%nat →
    Dec.loop data length s =
      Dec.loop data length
        {| Dec.buffer :=
             pre ++ decoded (Dec.code s) (bs ++ [cur])
                 ++ drop (List.length (decoded (Dec.code s) (bs ++ [cur]))) junk;
           Dec.byte := (List.length pin + List.length (frame (bs ++ [cur])))%nat;
           Dec.decode :=
             (List.length pre
              + List.length (decoded (Dec.code s) (bs ++ [cur])))%nat;
           Dec.code := Z.of_nat (List.length cur) + 1;
           Dec.block := 0 |}.
Proof.
  induction bs as [|lits bs IH];
    intros cur pin tail pre junk s Hdata Hbyte Hlen Hblock Hbs Hbuf Hdec Hcap.
  - simpl in *. unfold frame in Hdata, Hlen. simpl in Hdata, Hlen.
    rewrite app_nil_r in Hdata, Hlen, Hcap.
    rewrite Forall_singleton in Hbs.
    rewrite length_app in Hcap.
    rewrite (Dec_block data length cur pin tail pre junk s); try done.
    unfold frame. simpl.
    rewrite !app_nil_r, !length_app, drop_drop, <- !app_assoc. simpl.
    do 2 f_equal; lia.
  - change ((lits :: bs) ++ [cur]) with (lits :: (bs ++ [cur])) in *.
    change (frame (lits :: (bs ++ [cur])))
      with (block_bytes lits ++ frame (bs ++ [cur])) in *.
    apply Forall_cons in Hbs as [Hlits Hbs].
    simpl in Hcap. rewrite !length_app in Hcap. rewrite !length_app in Hlen.
    simpl in Hlen.
    set (sep := if Dec.code s =? 255 then [] else [x00]) in *.
    set (c := to_byte (Z.of_nat (List.length lits) + 1)).
    rewrite (Dec_block data length lits pin (frame (bs ++ [cur]) ++ tail)
               pre junk s);
      [ | by rewrite Hdata, <- app_assoc | done | lia | done | done | done
        | done | unfold sep in *; lia ].
    fold sep. fold c.
    rewrite (IH cur ((pin ++ [c]) ++ lits) tail ((pre ++ sep) ++ lits)
               (drop (List.length lits) (drop (List.length sep) junk)));
      simpl; try done.
    + unfold sep. rewrite !length_app, !drop_drop, <- !app_assoc. simpl.
      do 2 f_equal; lia.
    + rewrite Hdata. unfold block_bytes. fold c. simpl.
      by rewrite <- !app_assoc.
    + rewrite !length_app. simpl. lia.
    + rewrite !length_app. simpl. lia.
    + by rewrite <- !app_assoc.
    + rewrite !length_app. simpl. lia.
    + rewrite !length_drop. unfold sep in *. lia.
Qed.

(** The last block of the frame is maximal exactly when the non-zero bytes
    that end the input are a positive multiple of 254. *)
Lemma cobsEncode_frame_last (d buf : list byte) (n : nat) (out : list byte) :
  cobsEncode (Some d) (length d) (Some buf) = Some (n, Some out) →
  ∃ (bs : list (list byte)) (cur : list byte),
    take n out = frame (bs ++ [cur]) ∧
    n = length (frame (bs ++ [cur])) ∧
    Forall literal_block (bs ++ [cur]) ∧
    d = closed bs ++ cur ∧
    (length cur = 254%nat ↔
       (0 < trailing_run d)%nat ∧ (trailing_run d mod 254 = 0)%nat).
Proof.
  intros H. apply cobsEncode_inv in H as (s & o & Hloop & Hst & Ho & ->).
  inversion Ho; subst o; clear Ho.
  pose proof (Enc_loop_ctl d (length d) 0 (Enc.init buf) s eq_refl
                (ctl_init _ _) Hloop) as [Hctl _].
  pose proof (Enc_loop_layout d (length d) 0 (Enc.init buf) s eq_refl
                (ctl_init _ _) (layout_init _) Hloop)
    as (bs & cur & rest & Hbuf & Hcp & Hbs & Hcur & Hp & Hcode & Htake & Hseal).
  destruct Hctl as [(Hc & He & _ & Hend & _)|[_ (Hc & He & Hpos & Hmod & _)]].
  - rewrite Hbuf, Hcp, Hcode in Hst.
    apply layout_close in Hst as ->; [|done].
    exists bs, cur.
    assert (Enc.encode s = length (frame (bs ++ [cur]))) as ->
      by (rewrite length_frame_snoc; lia).
    rewrite take_app_length. repeat split; try done.
    + apply Forall_app. split; [done|].
      apply Forall_singleton. split; [done | lia].
    + lia.
    + lia.
    + intros [Hpos Hmod]. destruct (Hend eq_refl); [lia | div_lia].
  - destruct (Hseal (eq_sym He)) as (bs0 & full & -> & Hfull).
    destruct cur; [|simpl in Hcode; lia].
    apply store_inv in Hst as [Hin ->].
    exists bs0, full.
    rewrite Hbuf, <- He, Hcp, insert_app_r_alt, Nat.sub_diag by lia.
    rewrite take_app_length. repeat split; try done.
    + rewrite <- Hp, closed_snoc, app_nil_r. unfold implied_zero.
      rewrite Hfull. simpl. by rewrite app_nil_r.
    + div_lia.
Qed.

(** X12. Decoding a frame with its delimiter: when the frame the encoder
    made for [d] is followed by a zero byte and [length] reaches past the
    frame, the decoder stops at that zero byte, whatever follows it and
    however long [length] is, and it returns [d] followed by one zero byte;
    it returns just [d] when the non-zero bytes that end [d] are a positive
    multiple of 254. *)
Theorem cobsDecode_delimited (d buf : list byte) :
  (worst_case (length d) <= length buf)%nat →
  ∃ (n : nat) (out : list byte),
    cobsEncode (Some d) (length d) (Some buf) = Some (n, Some out) ∧
    ∀ (rest buf' : list byte) (length' : nat),
      (n < length' <= n + 1 + length rest)%nat →
      (length d + 1 <= length buf')%nat →
      cobsDecode (Some (take n out ++ x00 :: rest)) length' (Some buf')
        = if (0 <? trailing_run d)%nat && (trailing_run d mod 254 =? 0)%nat
          then Some (length d, Some (d ++ drop (length d) buf'))
          else Some (S (length d),
                     Some (d ++ x00 :: drop (S (length d)) buf')).
Proof.
  intros Hcap.
  destruct (cobsEncode_defined d buf Hcap) as (n & out & Henc).
  exists n, out. split; [done|].
  apply cobsEncode_frame_last in Henc
    as (bs & cur & -> & -> & Hbs & -> & Hlast).
  intros rest buf' length' Hlen Hcap'.
  set (d := closed bs ++ cur) in *.
  set (sealed := (0 <? trailing_run d)%nat && (trailing_run d mod 254 =? 0)%nat).
  assert (decoded 255 (bs ++ [cur]) = d) as Hdec by by rewrite decoded_snoc.
  assert ((frame (bs ++ [cur]) ++ x00 :: rest) !! length (frame (bs ++ [cur]))
          = Some x00) as Hload
    by by rewrite lookup_app_r, Nat.sub_diag by lia.
  unfold cobsDecode.
  rewrite (Dec_blocks_run (frame (bs ++ [cur]) ++ x00 :: rest) length'
             bs cur [] (x00 :: rest) [] buf' (Dec.init buf'));
    [ | done | done | simpl; lia | done | done | done | done
      | simpl; rewrite Hdec; lia ].
  simpl. rewrite Hdec.
  rewrite Dec_loop_unfold. simpl.
  destruct (Nat.ltb_spec (length (frame (bs ++ [cur]))) length'); [|lia].
  unfold Dec.body, load. simpl.
  destruct (Z.eqb_spec (Z.of_nat (length cur) + 1) 255) as [Hfull|Hfull]; simpl.
  - (* the last block is maximal: nothing is emitted *)
    rewrite Hload. simpl.
    assert (length cur = 254%nat) as Hcur by lia.
    apply Hlast in Hcur as [Hpos Hmod]. unfold sealed.
    apply Nat.ltb_lt in Hpos as ->. by apply Nat.eqb_eq in Hmod as ->.
  - (* the implied zero of the last block is emitted *)
    assert (sealed = false) as ->.
    { apply not_true_is_false. intros Hb. apply andb_true_iff in Hb as [Hp Hm].
      apply Nat.ltb_lt in Hp. apply Nat.eqb_eq in Hm.
      assert (length cur = 254%nat) by (apply Hlast; done). lia. }
    destruct (lookup_lt_is_Some_2 buf' (length d)) as [j Hj]; [lia|].
    rewrite (drop_S _ _ _ Hj).
    rewrite store_Some by (rewrite length_app; simpl; lia).
    simpl. rewrite Hload. simpl.
    by rewrite insert_app_r_alt, Nat.sub_diag by lia.
Qed.

Lemma cobsDecode_delimited_witness :
  ∃ (n : nat) (out : list byte),
    cobsEncode (Some [x11; x22]) 2 (Some [x55; x55; x55; x55])
      = Some (n, Some out) ∧
    ∀ (rest buf' : list byte) (length' : nat),
      (n < length' <= n + 1 + length rest)%nat →
      (2 + 1 <= length buf')%nat →
      cobsDecode (Some (take n out ++ x00 :: rest)) length' (Some buf')
        = if (0 <? trailing_run [x11; x22])%nat
             && (trailing_run [x11; x22] mod 254 =? 0)%nat
          then Some (2%nat, Some ([x11; x22] ++ drop 2 buf'))
          else Some (3%nat, Some ([x11; x22] ++ x00 :: drop 3 buf')).
Proof.
  apply (cobsDecode_delimited [x11; x22] [x55; x55; x55; x55]).
  vm_compute. lia.
Defined.

(** ** A block cut short by the end of the input *)

(** With at least as many literals announced as bytes are left, the loop
    copies the bytes that are left and ends. *)
Lemma Dec_copy_rest (data : list byte) (length : nat) :
  ∀ (lits pin pre junk : list byte) (s : Dec.state),
    data = pin ++ lits →
    Dec.byte s = List.length pin →
    length = (List.length pin + List.length lits)%nat →
    Z.of_nat (List.length lits) <= Dec.block s <= 255 →
    Dec.buffer s = pre ++ junk →
    Dec.decode s = List.length pre →
    (List.length lits <= List.length junk)%nat →
    ∃ s' : Dec.state,
      Dec.loop data length s = Some s' ∧
      Dec.buffer s' = pre ++ lits ++ drop (List.length lits) junk ∧
      Dec.decode s' = (List.length pre + List.length lits)%nat.
Proof.
  induction lits as [|b lits IH];
    intros pin pre junk s Hdata Hbyte Hlen Hblock Hbuf Hdec Hcap.
  - exists s. simpl in *. rewrite Dec_loop_unfold.
    destruct (Nat.ltb_spec (Dec.byte s) length); [lia|].
    by rewrite drop_0, Nat.add_0_r.
  - simpl in Hlen, Hcap, Hblock. rewrite Dec_loop_unfold.
    destruct (Nat.ltb_spec (Dec.byte s) length); [|lia].
    assert (data !! Dec.byte s = Some b) as Hload
      by by rewrite Hdata, Hbyte, lookup_app_r, Nat.sub_diag by lia.
    unfold Dec.body, load.
    destruct (Z.eqb_spec (Dec.block s) 0); [lia|]. simpl.
    rewrite Hload. simpl.
    destruct junk as [|j junk]; [simpl in Hcap; lia|].
    rewrite Hbuf, Hdec, store_Some by (rewrite length_app; simpl; lia).
    simpl. rewrite insert_app_r_alt, Nat.sub_diag by lia. simpl.
    edestruct (IH (pin ++ [b]) (pre ++ [b]) junk) as (s' & Hloop & Hbuf' & Hdec');
      [ | | | | | | | exists s'; split; [exact Hloop|] ].
    + by rewrite Hdata, <- app_assoc.
    + simpl. rewrite Hbyte, length_app. simpl. lia.
    + rewrite length_app. simpl. lia.
    + simpl. unfold wrap8. rewrite Z.mod_small; lia.
    + simpl. by rewrite <- app_assoc.
    + simpl. rewrite length_app. simpl. lia.
    + simpl in Hcap. lia.
    + rewrite Hbuf', Hdec', length_app, <- app_assoc. simpl. split; [done | lia].
Qed.

(** X13. The decoder does not reject a malformed frame: when the input
    ends before the literals its first code byte announces, the decoder
    returns the bytes that follow the code byte as they are, zero bytes
    included. *)
Theorem cobsDecode_truncated (c : byte) (lits buf : list byte) :
  u8 c ≠ 0 →
  Z.of_nat (length lits) < u8 c →
  (length lits <= length buf)%nat →
  cobsDecode (Some (c :: lits)) (S (length lits)) (Some buf)
    = Some (length lits, Some (lits ++ drop (length lits) buf)).
Proof.
  intros Hc Hshort Hcap. unfold cobsDecode.
  pose proof (Byte.to_N_bounded c) as Hmax.
  assert (u8 c <= 255) as Hmax' by (unfold u8; lia).
  rewrite Dec_loop_unfold. simpl.
  unfold Dec.body, load. simpl.
  destruct (Z.eqb_spec (u8 c) 0); [done|].
  destruct (Dec_copy_rest (c :: lits) (S (length lits)) lits [c] [] buf
              (Dec.step {| Dec.buffer := buf; Dec.byte := 1; Dec.decode := 0;
                           Dec.code := u8 c; Dec.block := u8 c |}))
    as (s' & Hloop & Hbuf & Hdec); try done.
  { simpl. unfold wrap8. rewrite Z.mod_small; lia. }
  rewrite Hloop. simpl. by rewrite Hbuf, Hdec.
Qed.

Lemma cobsDecode_truncated_witness :
  cobsDecode (Some [x05; x11; x00]) 3 (Some [x55; x55; x55])
    = Some (2%nat, Some [x11; x00; x55]).
Proof.
  apply (cobsDecode_truncated x05 [x11; x00] [x55; x55; x55]);
    vm_compute; (discriminate || reflexivity || lia).
Defined.
